(** * Photo print layout: page packing and slot rasterisation

    A shallow embedding of the geometric core of [src/App.tsx] and
    [src/types.ts]: target-size resolution ([getTargetSize]), the shelf
    packer with its centring pass ([calculateLayout]) and the crop / fit
    arithmetic shared by [generatePDF] and [saveToPNG].

    Numbers.  A TypeScript [number] is modelled by an exact rational [Q]:
    the arithmetic of the source is carried out without rounding, and the
    comparisons of the source are the boolean comparisons below.  Statements
    that the specification makes "within floating tolerance" are proved
    here as exact equalities up to [==].  Division by zero (Infinity or NaN
    in the source, 0 in [Q]) is outside the model: every theorem about a
    quotient assumes a positive divisor. *)

From Stdlib Require Import QArith Qabs Qminmax Qround Lqa.
From Stdlib Require Import List String Bool ZArith PeanoNat Lia.
Import ListNotations.

Local Open Scope string_scope.
Local Open Scope list_scope.
Local Open Scope Q_scope.

(** ** Number primitives *)

(** [a > b] on numbers. *)
Definition gtb (a b : Q) : bool := negb (Qle_bool a b).

(** [a < b] on numbers. *)
Definition ltb (a b : Q) : bool := negb (Qle_bool b a).

(** [Math.round]: the nearest integer, halves going up. *)
Definition Math_round (a : Q) : Q := inject_Z (Qfloor (a + 0.5)).

(** [Math.min(x, ...xs)] on a non-empty argument list. *)
Fixpoint Math_min (x : Q) (xs : list Q) : Q :=
  match xs with
  | [] => x
  | y :: ys => Math_min (Qmin x y) ys
  end.

(** [Math.max(x, ...xs)] on a non-empty argument list. *)
Fixpoint Math_max (x : Q) (xs : list Q) : Q :=
  match xs with
  | [] => x
  | y :: ys => Math_max (Qmax x y) ys
  end.

(** [v || d] where [v] is an optional number: [undefined] and [0] are
    falsy and give the default. *)
Definition orDefault (v : option Q) (d : Q) : Q :=
  match v with
  | Some q => if Qeq_bool q 0 then d else q
  | None => d
  end.

(** ** types.ts *)

Module PhotoSize.
Record t : Type := mk
  { id : string; name : string; widthCm : Q; heightCm : Q }.
End PhotoSize.

(** The double-quote character used in the catalogue's display names. *)
Definition dq : string := String (Ascii.ascii_of_nat 34) EmptyString.

Local Infix "+++" := String.append (at level 60, right associativity).

Definition STANDARD_SIZES : list PhotoSize.t :=
  [ PhotoSize.mk "10x15" ("10x15 (4x6" +++ dq +++ ")") 10 15
  ; PhotoSize.mk "13x18" ("13x18 (5x7" +++ dq +++ ")") 13 18
  ; PhotoSize.mk "15x21" ("15x21 (6x8" +++ dq +++ ")") 15 21
  ; PhotoSize.mk "20x25" ("20x25 (8x10" +++ dq +++ ")") 20 25
  ; PhotoSize.mk "10x10" ("10x10 (4x4" +++ dq +++ ")") 10 10
  ; PhotoSize.mk "5x7" ("5x7 (2x3" +++ dq +++ ")") 5 7
  ; PhotoSize.mk "3x4" "3x4" 3 4 ].

Definition A4_WIDTH_CM : Q := 21.
Definition A4_HEIGHT_CM : Q := 29.7.

(** [ImageFile].  The browser [File] handle is opaque to the layout and is
    left out; [copies] is a count. *)
Module ImageFile.
Record t : Type := mk
  { id : string; previewUrl : string; copies : nat; width : Q; height : Q }.
End ImageFile.

Inductive CustomUnit : Type := cm | inch | px.
Inductive Orientation : Type := auto | portrait | landscape.
Inductive FitMode : Type := cover | contain.

Record PrintSettings : Type := mkSettings
  { sizeId : string
  ; customWidth : Q
  ; customHeight : Q
  ; customUnit : CustomUnit
  ; hasBorder : bool
  ; isPolaroid : bool
  ; orientation : Orientation
  ; spacing : Q
  ; margin : Q
  ; fitMode : FitMode }.

(** The initial state of the settings in [App]. *)
Definition defaultSettings : PrintSettings :=
  {| sizeId := "10x15"; customWidth := 10; customHeight := 15;
     customUnit := cm; hasBorder := false; isPolaroid := false;
     orientation := auto; spacing := 0.2; margin := 0.3;
     fitMode := cover |}.

(** ** getTargetSize *)

Module Size.
Record t : Type := mk { width : Q; height : Q }.
End Size.

Definition getTargetSize (settings : PrintSettings) : Size.t :=
  if String.eqb (sizeId settings) "custom" then
    let w := customWidth settings in
    let h := customHeight settings in
    match customUnit settings with
    | inch => Size.mk (w * 2.54) (h * 2.54)
    | px => Size.mk ((w * 2.54) / 300) ((h * 2.54) / 300)
    | cm => Size.mk w h
    end
  else
    let size :=
      find (fun s => String.eqb (PhotoSize.id s) (sizeId settings))
           STANDARD_SIZES in
    Size.mk (orDefault (option_map PhotoSize.widthCm size) 10)
            (orDefault (option_map PhotoSize.heightCm size) 15).

(** ** calculateLayout *)

Module Placed.
Record t : Type := mk
  { img : ImageFile.t; x : Q; y : Q; w : Q; h : Q; isRotated : bool }.
End Placed.

(** A page object has the single field [images]; it is modelled by that
    array. *)
Definition Page : Type := list Placed.t.

(** The fan-out loop: every image is pushed [copies] times, in order. *)
Definition allItemsToPrint (images : list ImageFile.t) : list ImageFile.t :=
  flat_map (fun img => repeat img (ImageFile.copies img)) images.

(** The orientation block at the head of the placement loop: the slot
    width, height and rotated flag chosen for one copy. *)
Definition orientSlot (o : Orientation) (img : ImageFile.t)
    (targetSize : Size.t) : Q * Q * bool :=
  let w := Size.width targetSize in
  let h := Size.height targetSize in
  match o with
  | auto =>
      let imgIsLandscape := gtb (ImageFile.width img) (ImageFile.height img) in
      let targetIsLandscape := gtb w h in
      if negb (Bool.eqb imgIsLandscape targetIsLandscape)
      then (h, w, true) else (w, h, false)
  | landscape => if ltb w h then (h, w, true) else (w, h, false)
  | portrait => if gtb w h then (h, w, true) else (w, h, false)
  end.

(** The mutable locals of [calculateLayout]. *)
Record Cursor : Type := mkCursor
  { pages : list Page
  ; currentImages : Page
  ; currentX : Q
  ; currentY : Q
  ; rowHeight : Q }.

Definition pageWidth : Q := A4_WIDTH_CM.
Definition pageHeight : Q := A4_HEIGHT_CM.

Definition startCursor (settings : PrintSettings) : Cursor :=
  {| pages := []; currentImages := [];
     currentX := margin settings; currentY := margin settings;
     rowHeight := 0 |}.

(** "Check if it fits in current row". *)
Definition wrapRow (settings : PrintSettings) (w : Q) (c : Cursor) : Cursor :=
  if gtb (currentX c + w) (pageWidth - margin settings + 0.001) then
    {| pages := pages c; currentImages := currentImages c;
       currentX := margin settings;
       currentY := currentY c + (rowHeight c + spacing settings);
       rowHeight := 0 |}
  else c.

(** "Check if it fits in current page". *)
Definition sealPage (settings : PrintSettings) (h : Q) (c : Cursor) : Cursor :=
  if gtb (currentY c + h) (pageHeight - margin settings + 0.001) then
    {| pages := pages c ++ [currentImages c]; currentImages := [];
       currentX := margin settings; currentY := margin settings;
       rowHeight := 0 |}
  else c.

(** The push that ends an iteration: the slot is recorded at the cursor,
    the cursor moves right and the row grows to the slot's height. *)
Definition pushItem (settings : PrintSettings) (img : ImageFile.t)
    (w h : Q) (isRotated : bool) (c : Cursor) : Cursor :=
  {| pages := pages c;
     currentImages :=
       currentImages c ++ [Placed.mk img (currentX c) (currentY c) w h isRotated];
     currentX := currentX c + (w + spacing settings);
     currentY := currentY c;
     rowHeight := Qmax (rowHeight c) h |}.

(** One iteration of the placement loop. *)
Definition placeItem (settings : PrintSettings) (targetSize : Size.t)
    (c : Cursor) (img : ImageFile.t) : Cursor :=
  let '(w, h, isRotated) := orientSlot (orientation settings) img targetSize in
  pushItem settings img w h isRotated
           (sealPage settings h (wrapRow settings w c)).

Definition packItems (settings : PrintSettings) (images : list ImageFile.t)
    : Cursor :=
  fold_left (placeItem settings (getTargetSize settings))
            (allItemsToPrint images) (startCursor settings).

(** The final seal: the last page is pushed when it holds an item. *)
Definition packedPages (settings : PrintSettings) (images : list ImageFile.t)
    : list Page :=
  let c := packItems settings images in
  match currentImages c with
  | [] => pages c
  | _ :: _ => pages c ++ [currentImages c]
  end.

Definition shiftX (offsetX : Q) (i : Placed.t) : Placed.t :=
  Placed.mk (Placed.img i) (Placed.x i + offsetX) (Placed.y i)
            (Placed.w i) (Placed.h i) (Placed.isRotated i).

Definition right (i : Placed.t) : Q := Placed.x i + Placed.w i.

(** The horizontal shift computed for a page whose first item is [i]. *)
Definition centerOffset (i : Placed.t) (rest : Page) : Q :=
  let minX := Math_min (Placed.x i) (map Placed.x rest) in
  let maxX := Math_max (right i) (map right rest) in
  let contentWidth := maxX - minX in
  (pageWidth - contentWidth) / 2 - minX.

(** "Center the images horizontally on each page". *)
Definition centerPage (page : Page) : Page :=
  match page with
  | [] => []
  | i :: rest => map (shiftX (centerOffset i rest)) page
  end.

Definition calculateLayout (settings : PrintSettings)
    (images : list ImageFile.t) : list Page :=
  map centerPage (packedPages settings images).

(** ** Slot rasterisation: the geometry of [generatePDF] and [saveToPNG] *)

(** "Determine if we should rotate the image to fit the slot better". *)
Definition shouldRotate (slotW slotH imgW imgH : Q) : bool :=
  let slotAspect := slotW / slotH in
  let imgAspect := imgW / imgH in
  (gtb slotAspect 1 && ltb imgAspect 1) || (ltb slotAspect 1 && gtb imgAspect 1).

(** The two forms of [ctx.drawImage] issued for a slot: the nine-argument
    form with a source crop (cover) and the five-argument form that draws
    the whole image (contain). *)
Inductive DrawCall : Type :=
  | drawImageCrop (sourceX sourceY sourceW sourceH drawX drawY drawW drawH : Q)
  | drawImageFit (finalDrawX finalDrawY finalDrawW finalDrawH : Q).

(** The draw rectangle after the swap made when the image is rotated. *)
Definition swapDraw (rotate : bool) (drawW drawH : Q) : Q * Q :=
  if rotate then (drawH, drawW) else (drawW, drawH).

Definition currentImgAspect (rotate : bool) (imgW imgH : Q) : Q :=
  if rotate then imgH / imgW else imgW / imgH.

(** The block from [ctx.save()] to [ctx.restore()], textually the same in
    [generatePDF] and [saveToPNG]: swap of the draw size when rotated,
    then the crop (cover) or the scaled rectangle (contain). *)
Definition fitImage (mode : FitMode) (rotate : bool)
    (imgW imgH drawX drawY drawW0 drawH0 : Q) : DrawCall :=
  let '(drawW, drawH) := swapDraw rotate drawW0 drawH0 in
  let imgAspect := currentImgAspect rotate imgW imgH in
  let targetAspect := drawW / drawH in
  match mode with
  | cover =>
      if gtb imgAspect targetAspect then
        let sourceW := imgH * targetAspect in
        let sourceX := (imgW - sourceW) / 2 in
        drawImageCrop sourceX 0 sourceW imgH drawX drawY drawW drawH
      else
        let sourceH := imgW / targetAspect in
        let sourceY := (imgH - sourceH) * 0.35 in
        drawImageCrop 0 sourceY imgW sourceH drawX drawY drawW drawH
  | contain =>
      if gtb imgAspect targetAspect then
        let finalDrawH := drawW / imgAspect in
        let finalDrawY := drawY + (drawH - finalDrawH) / 2 in
        drawImageFit drawX finalDrawY drawW finalDrawH
      else
        let finalDrawW := drawH * imgAspect in
        let finalDrawX := drawX + (drawW - finalDrawW) / 2 in
        drawImageFit finalDrawX drawY finalDrawW drawH
  end.

(** A rectangle as (x, y, width, height). *)
Definition Rect : Type := (Q * Q * Q * Q)%type.

(** The border inset of [generatePDF]. *)
Definition pdfDrawRect (settings : PrintSettings) (canvasW canvasH : Q) : Rect :=
  if hasBorder settings || isPolaroid settings then
    let borderSize := canvasW * 0.04 in
    let bottomExtra := if isPolaroid settings then canvasH * 0.12 else 0 in
    (borderSize, borderSize,
     canvasW - borderSize * 2, canvasH - borderSize * 2 - bottomExtra)
  else (0, 0, canvasW, canvasH).

(** The border inset of [saveToPNG], rounded to whole pixels. *)
Definition pngDrawRect (settings : PrintSettings) (finalW finalH : Q) : Rect :=
  if hasBorder settings || isPolaroid settings then
    let borderSize := Math_round (finalW * 0.04) in
    let bottomExtra :=
      if isPolaroid settings then Math_round (finalH * 0.12) else 0 in
    (borderSize, borderSize,
     finalW - borderSize * 2, finalH - borderSize * 2 - bottomExtra)
  else (0, 0, finalW, finalH).

(** What [generatePDF] draws for one placed item whose decoded image is
    [imgW] by [imgH] pixels: the rotation decision and the draw call. *)
Definition pdfDraw (settings : PrintSettings) (item : Placed.t)
    (imgW imgH : Q) : bool * DrawCall :=
  let rotate := shouldRotate (Placed.w item) (Placed.h item) imgW imgH in
  let scale := 118.11 in
  let canvasW := Math_round (Placed.w item * scale) in
  let canvasH := Math_round (Placed.h item * scale) in
  let '(drawX, drawY, drawW, drawH) := pdfDrawRect settings canvasW canvasH in
  (rotate, fitImage (fitMode settings) rotate imgW imgH drawX drawY drawW drawH).

(** The canvas size of [saveToPNG] for one image. *)
Definition pngCanvas (settings : PrintSettings) (img : ImageFile.t) : Q * Q :=
  let targetSize := getTargetSize settings in
  let dpi := 300 in
  let pxW := Math_round ((Size.width targetSize / 2.54) * dpi) in
  let pxH := Math_round ((Size.height targetSize / 2.54) * dpi) in
  let isImgLandscape := gtb (ImageFile.width img) (ImageFile.height img) in
  match orientation settings with
  | landscape => if ltb pxW pxH then (pxH, pxW) else (pxW, pxH)
  | portrait => if gtb pxW pxH then (pxH, pxW) else (pxW, pxH)
  | auto =>
      if isImgLandscape
      then (if ltb pxW pxH then (pxH, pxW) else (pxW, pxH))
      else (if gtb pxW pxH then (pxH, pxW) else (pxW, pxH))
  end.

(** What [saveToPNG] draws for one copy of [img]. *)
Definition pngDraw (settings : PrintSettings) (img : ImageFile.t)
    (imgW imgH : Q) : bool * DrawCall :=
  let '(finalW, finalH) := pngCanvas settings img in
  let rotate := shouldRotate finalW finalH imgW imgH in
  let '(drawX, drawY, drawW, drawH) := pngDrawRect settings finalW finalH in
  (rotate, fitImage (fitMode settings) rotate imgW imgH drawX drawY drawW drawH).

(** ** Predicates used by the statements *)

(** Two slots overlap when their open rectangles meet. *)
Definition overlaps (a b : Placed.t) : bool :=
  ltb (Placed.x a) (Placed.x b + Placed.w b) &&
  ltb (Placed.x b) (Placed.x a + Placed.w a) &&
  ltb (Placed.y a) (Placed.y b + Placed.h b) &&
  ltb (Placed.y b) (Placed.y a + Placed.h a).

(** The tolerance of the row and page tests. *)
Definition epsilon : Q := 0.001.

(** A slot lies in the printable area, up to [epsilon]. *)
Definition withinPrintable (settings : PrintSettings) (i : Placed.t) : Prop :=
  margin settings - epsilon <= Placed.x i /\
  Placed.x i + Placed.w i <= pageWidth - margin settings + epsilon /\
  margin settings - epsilon <= Placed.y i /\
  Placed.y i + Placed.h i <= pageHeight - margin settings + epsilon.

(** The effective slot of [img] under [settings]. *)
Definition effectiveSlot (settings : PrintSettings) (img : ImageFile.t)
    : Q * Q * bool :=
  orientSlot (orientation settings) img (getTargetSize settings).

(** Positions and sizes of a page in lowest terms, for concrete checks. *)
Definition pageCoords (p : Page) : list (Q * Q * Q * Q * bool) :=
  map (fun i => (Qred (Placed.x i), Qred (Placed.y i),
                 Qred (Placed.w i), Qred (Placed.h i), Placed.isRotated i)) p.

(** Scenario 1 of the specification: three undecoded images. *)
Definition unknownImage (n : string) : ImageFile.t :=
  ImageFile.mk n "" 1 0 0.

Definition scenario1 : list ImageFile.t :=
  [unknownImage "a"; unknownImage "b"; unknownImage "c"].

(** Scenario 4 of the specification: a custom size given in pixels. *)
Definition scenario4 : PrintSettings :=
  {| sizeId := "custom"; customWidth := 1000; customHeight := 1500;
     customUnit := px; hasBorder := false; isPolaroid := false;
     orientation := auto; spacing := 0.2; margin := 0.3;
     fitMode := cover |}.

(** A custom landscape slot, 15 cm wide and 10 cm high. *)
Definition customLandscape : PrintSettings :=
  {| sizeId := "custom"; customWidth := 15; customHeight := 10;
     customUnit := cm; hasBorder := false; isPolaroid := false;
     orientation := auto; spacing := 0.2; margin := 0.3;
     fitMode := cover |}.

(** A size id that is neither custom nor in the catalogue. *)
Definition unknownSize : PrintSettings :=
  {| sizeId := "A3"; customWidth := 10; customHeight := 15;
     customUnit := cm; hasBorder := false; isPolaroid := false;
     orientation := auto; spacing := 0.2; margin := 0.3;
     fitMode := cover |}.

(** The extent of a non-empty page along x, as the centring pass
    computes it. *)
Definition pageMinX (p : Page) : Q :=
  match p with
  | [] => 0
  | i :: rest => Math_min (Placed.x i) (map Placed.x rest)
  end.

Definition pageMaxX (p : Page) : Q :=
  match p with
  | [] => 0
  | i :: rest => Math_max (right i) (map right rest)
  end.

(** Everything of a slot except its horizontal position. *)
Definition sameSlot (a b : Placed.t) : Prop :=
  Placed.img b = Placed.img a /\ Placed.y b = Placed.y a /\
  Placed.w b = Placed.w a /\ Placed.h b = Placed.h a /\
  Placed.isRotated b = Placed.isRotated a.

(** No two slots of a page overlap: every earlier slot is clear of every
    later one. *)
Definition NoOverlap (p : Page) : Prop :=
  ForallOrdPairs (fun a b => overlaps a b = false) p.

(** The constraint of the data model on the numeric settings the packer
    reads: spacing and the custom extent are not negative. *)
Definition validSettings (settings : PrintSettings) : Prop :=
  0 <= spacing settings /\ 0 <= customWidth settings /\
  0 <= customHeight settings.

(** The effective slot of an image fits the printable area. *)
Definition fitsPrintable (settings : PrintSettings) (img : ImageFile.t) : Prop :=
  let e := effectiveSlot settings img in
  fst (fst e) <= pageWidth - 2 * margin settings /\
  snd (fst e) <= pageHeight - 2 * margin settings.

(** The slot recorded for an image is its effective slot. *)
Definition slotOf (settings : PrintSettings) (i : Placed.t) : Prop :=
  (Placed.w i, Placed.h i, Placed.isRotated i) =
  effectiveSlot settings (Placed.img i).

(** All slots placed so far, sealed pages first. *)
Definition allPlaced (c : Cursor) : list Placed.t :=
  List.concat (pages c) ++ currentImages c.

(** A slot as the packer leaves it, before centring: inside the printable
    area, with the tolerance only on the far edges. *)
Definition packedSlot (settings : PrintSettings) (i : Placed.t) : Prop :=
  margin settings <= Placed.x i /\
  Placed.x i + Placed.w i <= pageWidth - margin settings + epsilon /\
  margin settings <= Placed.y i /\
  Placed.y i + Placed.h i <= pageHeight - margin settings + epsilon.

(** A page as the packer leaves it: slots inside the printable area,
    pairwise clear, and the leftmost one at the margin. *)
Definition packedPage (settings : PrintSettings) (p : Page) : Prop :=
  Forall (packedSlot settings) p /\ NoOverlap p /\
  (p <> [] -> Exists (fun i => Placed.x i == margin settings) p).

(** A slot of the current page lies behind the cursor: it ends above the
    current row, or it is in the current row and ends left of the cursor. *)
Definition behindCursor (c : Cursor) (i : Placed.t) : Prop :=
  Placed.y i + Placed.h i <= currentY c + rowHeight c /\
  (Placed.y i + Placed.h i <= currentY c \/
   (Placed.y i == currentY c /\ Placed.x i + Placed.w i <= currentX c)).

(** The loop invariant of the placement loop. *)
Record cursorInv (settings : PrintSettings) (c : Cursor) : Prop := mkInv
  { inv_pages : Forall (packedPage settings) (pages c)
  ; inv_current : packedPage settings (currentImages c)
  ; inv_behind : Forall (behindCursor c) (currentImages c)
  ; inv_x : margin settings <= currentX c
  ; inv_y : margin settings <= currentY c
  ; inv_row : 0 <= rowHeight c
  ; inv_fresh : currentImages c = [] -> currentX c == margin settings }.

(** ** lib/utils *)

(** The [dpi] argument defaults to 300 in the source; here it is always
    passed. *)
Definition cmToPx (cm dpi : Q) : Q := (cm * dpi) / 2.54.

Definition pxToCm (px dpi : Q) : Q := (px * 2.54) / dpi.

Definition inchToCm (inch : Q) : Q := inch * 2.54.

(** ** The gallery: handleFileUpload, removeImage, updateCopies *)

(** A picked file, as the platform hands it over: the random id drawn for
    it and the object URL created for it. *)
Definition PickedFile : Type := (string * string)%type.

Definition newImage (f : PickedFile) : ImageFile.t :=
  ImageFile.mk (fst f) (snd f) 1 0 0.

(** [setImages(prev => [...prev, ...newImages])]. *)
Definition handleFileUpload (files : list PickedFile)
    (prev : list ImageFile.t) : list ImageFile.t :=
  prev ++ map newImage files.

(** The [onload] callback of an uploaded image: the decoded size is
    stored on every entry with that id. *)
Definition onImageLoad (id : string) (width height : Q)
    (prev : list ImageFile.t) : list ImageFile.t :=
  map (fun p =>
         if String.eqb (ImageFile.id p) id
         then ImageFile.mk (ImageFile.id p) (ImageFile.previewUrl p)
                           (ImageFile.copies p) width height
         else p) prev.

(** [removeImage]: the object URL that is revoked (that of the first entry
    with the id, if any) and the new gallery. *)
Definition removeImage (id : string) (prev : list ImageFile.t)
    : option string * list ImageFile.t :=
  (option_map ImageFile.previewUrl
     (find (fun i => String.eqb (ImageFile.id i) id) prev),
   filter (fun i => negb (String.eqb (ImageFile.id i) id)) prev).

(** [updateCopies]: [Math.max(1, img.copies + delta)] on the entries with
    the id. *)
Definition updateCopies (id : string) (delta : Z)
    (prev : list ImageFile.t) : list ImageFile.t :=
  map (fun img =>
         if String.eqb (ImageFile.id img) id
         then ImageFile.mk (ImageFile.id img) (ImageFile.previewUrl img)
                (Z.to_nat (Z.max 1 (Z.of_nat (ImageFile.copies img) + delta)))
                (ImageFile.width img) (ImageFile.height img)
         else img) prev.

(** What can happen to the gallery. *)
Inductive GalleryEvent : Type :=
  | Upload (files : list PickedFile)
  | Loaded (id : string) (width height : Q)
  | Remove (id : string)
  | Copies (id : string) (delta : Z).

Definition applyEvent (imgs : list ImageFile.t) (e : GalleryEvent)
    : list ImageFile.t :=
  match e with
  | Upload files => handleFileUpload files imgs
  | Loaded id width height => onImageLoad id width height imgs
  | Remove id => snd (removeImage id imgs)
  | Copies id delta => updateCopies id delta imgs
  end.

(** The gallery after a run of events, from the empty initial state. *)
Definition gallery (events : list GalleryEvent) : list ImageFile.t :=
  fold_left applyEvent events [].

(** ** The preview page effect *)

(** "Reset preview page if out of bounds": the value of [previewPage]
    after the effect has run for [pagesLength] pages. *)
Definition resetPreviewPage (previewPage pagesLength : nat) : nat :=
  if (pagesLength <=? previewPage)%nat && (0 <? pagesLength)%nat
  then (pagesLength - 1)%nat
  else if (pagesLength =? 0)%nat then 0%nat
  else previewPage.

(** ** The export loops *)

(** The downloads of [saveToPNG], in order: for every image and every copy
    index [c], the number [c + 1] used in the file name and what is drawn.
    [decoded] gives the size of the decoded image element; a 2d context is
    taken to be available. *)
Definition saveToPNG (settings : PrintSettings) (images : list ImageFile.t)
    (decoded : ImageFile.t -> Q * Q)
    : list (ImageFile.t * nat * (bool * DrawCall)) :=
  flat_map
    (fun img =>
       map (fun c =>
              (img, S c,
               pngDraw settings img (fst (decoded img)) (snd (decoded img))))
           (seq 0 (ImageFile.copies img)))
    images.

(** ** The rotated drawing frame *)

(** [ctx.translate(tx, ty)]: where a point of the new user space lies in
    the old one. *)
Definition translate (tx ty : Q) (p : Q * Q) : Q * Q :=
  (fst p + tx, snd p + ty).

(** [ctx.rotate(Math.PI / 2)], taken as the exact quarter turn
    (cosine 0, sine 1). *)
Definition rotateQuarter (p : Q * Q) : Q * Q := (- snd p, fst p).

(** The three transform calls made when the image is rotated, for the
    draw rectangle before the swap: where a point given to [drawImage]
    lands on the canvas. *)
Definition rotatedFrame (drawX drawY drawW drawH : Q) (p : Q * Q) : Q * Q :=
  translate (drawX + drawW / 2) (drawY + drawH / 2)
    (rotateQuarter
       (translate (- (drawX + drawW / 2)) (- (drawY + drawH / 2)) p)).

(** ** Further predicates on pages *)

(** Two slots in placement order are a spacing apart: the first ends a
    spacing above the second, or they share a row and the first ends a
    spacing to the left of the second. *)
Definition apart (sp : Q) (a b : Placed.t) : Prop :=
  Placed.y a + Placed.h a + sp <= Placed.y b \/
  (Placed.y a == Placed.y b /\ Placed.x a + Placed.w a + sp <= Placed.x b).

Definition spacedPage (sp : Q) (p : Page) : Prop :=
  ForallOrdPairs (apart sp) p.

(** A slot of the current page is a spacing behind the cursor. *)
Definition spacedBehind (sp : Q) (c : Cursor) (i : Placed.t) : Prop :=
  Placed.y i + Placed.h i <= currentY c + rowHeight c /\
  (Placed.y i + Placed.h i + sp <= currentY c \/
   (Placed.y i == currentY c /\ Placed.x i + Placed.w i + sp <= currentX c)).

(** The spacing invariant of the placement loop. *)
Record spacingInv (sp : Q) (c : Cursor) : Prop := mkSpacingInv
  { sp_pages : Forall (spacedPage sp) (pages c)
  ; sp_current : spacedPage sp (currentImages c)
  ; sp_behind : Forall (spacedBehind sp c) (currentImages c) }.

(** A page has a first slot, and the packer put it in the top left corner
    of the printable area. *)
Definition startsAtTop (settings : PrintSettings) (p : Page) : Prop :=
  match p with
  | [] => False
  | i :: _ => Placed.x i == margin settings /\ Placed.y i == margin settings
  end.

(** The invariant behind it: sealed pages start at the top, and so does
    the current page once it holds a slot; while it is empty the cursor
    is in the corner. *)
Record topInv (settings : PrintSettings) (c : Cursor) : Prop := mkTopInv
  { top_pages : Forall (startsAtTop settings) (pages c)
  ; top_current :
      currentImages c <> [] -> startsAtTop settings (currentImages c)
  ; top_fresh :
      currentImages c = [] ->
      currentX c == margin settings /\ currentY c == margin settings }.

(** A slot is the target size or its swap, with the flag telling which. *)
Definition keptOrSwapped (t : Size.t) (i : Placed.t) : Prop :=
  (Placed.isRotated i = false /\
   Placed.w i = Size.width t /\ Placed.h i = Size.height t) \/
  (Placed.isRotated i = true /\
   Placed.w i = Size.height t /\ Placed.h i = Size.width t).

(** A custom slot taller than the page. *)
Definition tallCustom : PrintSettings :=
  {| sizeId := "custom"; customWidth := 10; customHeight := 30;
     customUnit := cm; hasBorder := false; isPolaroid := false;
     orientation := portrait; spacing := 0.2; margin := 0.3;
     fitMode := cover |}.

(** The polaroid style switched on, the plain border off. *)
Definition polaroidSettings : PrintSettings :=
  {| sizeId := "10x15"; customWidth := 10; customHeight := 15;
     customUnit := cm; hasBorder := false; isPolaroid := true;
     orientation := auto; spacing := 0.2; margin := 0.3;
     fitMode := cover |}.

(** A decoded landscape image. *)
Definition landscapeImage : ImageFile.t :=
  ImageFile.mk "l" "" 2 4000 3000.

(** The failing input of contain mode: the [landscape] policy with the
    default size, and a decoded portrait photo. *)
Definition containLandscape : PrintSettings :=
  {| sizeId := "10x15"; customWidth := 10; customHeight := 15;
     customUnit := cm; hasBorder := false; isPolaroid := false;
     orientation := landscape; spacing := 0.2; margin := 0.3;
     fitMode := contain |}.

Definition portraitPhoto : ImageFile.t :=
  ImageFile.mk "p" "" 1 3000 4000.

(** * Properties *)

(** ** Comparisons *)

Lemma gtb_true (a b : Q) : gtb a b = true <-> b < a.
Proof.
  unfold gtb. rewrite negb_true_iff, <- not_true_iff_false, Qle_bool_iff.
  split; [apply Qnot_le_lt | apply Qlt_not_le].
Qed.

Lemma gtb_false (a b : Q) : gtb a b = false <-> a <= b.
Proof.
  unfold gtb. rewrite negb_false_iff. apply Qle_bool_iff.
Qed.

Lemma ltb_true (a b : Q) : ltb a b = true <-> a < b.
Proof. unfold ltb. apply (gtb_true b a). Qed.

Lemma ltb_false (a b : Q) : ltb a b = false <-> b <= a.
Proof. unfold ltb. apply (gtb_false b a). Qed.

Lemma gtb_spec (a b : Q) : reflect (b < a) (gtb a b).
Proof.
  destruct (gtb a b) eqn:E; constructor.
  - now apply gtb_true.
  - apply gtb_false in E. now apply Qle_not_lt.
Qed.

(** ** Quotients *)

(** Linear arithmetic over [Q] with halves read as a constant factor. *)
Ltac qlra := unfold Qdiv in *; change (/ 2) with (1 # 2) in *; lra.

Lemma div_lt_iff (a b c : Q) : 0 < b -> (a / b < c <-> a < c * b).
Proof.
  intros Hb. split; intros H.
  - assert (E : a == a / b * b) by (field; lra).
    rewrite E. apply Qmult_lt_r; assumption.
  - apply Qlt_shift_div_r; assumption.
Qed.

Lemma lt_div_iff (a b c : Q) : 0 < c -> (a < b / c <-> a * c < b).
Proof.
  intros Hc. split; intros H.
  - assert (E : b == b / c * c) by (field; lra).
    rewrite E. apply Qmult_lt_r; assumption.
  - apply Qlt_shift_div_l; assumption.
Qed.

Lemma le_div_iff (a b c : Q) : 0 < c -> (a <= b / c <-> a * c <= b).
Proof.
  intros Hc. split; intros H.
  - apply Qnot_lt_le. intros Hlt. apply (div_lt_iff b c a Hc) in Hlt.
    now apply (Qlt_not_le _ _ Hlt).
  - apply Qle_shift_div_l; assumption.
Qed.

Lemma div_pos (a b : Q) : 0 < a -> 0 < b -> 0 < a / b.
Proof. intros Ha Hb. apply Qlt_shift_div_l; lra. Qed.

(** ** Target size *)

(** C9.  When the size id is 'custom', the target slot in centimetres is
    the custom width and height converted by unit: unchanged for cm,
    times 2.54 for inch, times 2.54/300 for px.  For 1000 px by 1500 px
    that is (1000*2.54/300, 1500*2.54/300): the height is 12.7 and the
    width is within 0.001 of 8.467. *)
Theorem getTargetSize_custom (s : PrintSettings) :
  sizeId s = "custom" ->
  getTargetSize s =
    match customUnit s with
    | cm => Size.mk (customWidth s) (customHeight s)
    | inch => Size.mk (customWidth s * 2.54) (customHeight s * 2.54)
    | px => Size.mk (customWidth s * 2.54 / 300) (customHeight s * 2.54 / 300)
    end
  /\ getTargetSize scenario4 = Size.mk (1000 * 2.54 / 300) (1500 * 2.54 / 300)
  /\ Qabs (Size.width (getTargetSize scenario4) - 8.467) < 0.001
  /\ Size.height (getTargetSize scenario4) == 12.7.
Proof.
  intros Hid. split; [|split; [|split]].
  - unfold getTargetSize. rewrite Hid. simpl. now destruct (customUnit s).
  - reflexivity.
  - vm_compute. reflexivity.
  - vm_compute. reflexivity.
Qed.

Lemma getTargetSize_custom_witness :
  getTargetSize scenario4 =
    Size.mk (customWidth scenario4 * 2.54 / 300)
            (customHeight scenario4 * 2.54 / 300)
  /\ getTargetSize scenario4 = Size.mk (1000 * 2.54 / 300) (1500 * 2.54 / 300)
  /\ Qabs (Size.width (getTargetSize scenario4) - 8.467) < 0.001
  /\ Size.height (getTargetSize scenario4) == 12.7.
Proof.
  apply (getTargetSize_custom scenario4). reflexivity.
Defined.

(** C10.  A size id that is neither 'custom' nor the id of a catalogue
    entry resolves to the default slot, 10 cm by 15 cm; resolution is a
    total function, so no size id makes it fail. *)
Theorem getTargetSize_unknown_id (s : PrintSettings) :
  sizeId s <> "custom" ->
  (forall p, In p STANDARD_SIZES -> PhotoSize.id p <> sizeId s) ->
  getTargetSize s = Size.mk 10 15.
Proof.
  intros Hc Hn. unfold getTargetSize.
  apply String.eqb_neq in Hc. rewrite Hc.
  destruct (find _ STANDARD_SIZES) as [p|] eqn:F.
  - apply find_some in F. destruct F as [Hin Heq].
    apply String.eqb_eq in Heq. now elim (Hn p Hin).
  - reflexivity.
Qed.

Lemma getTargetSize_unknown_id_witness :
  getTargetSize unknownSize = Size.mk 10 15.
Proof.
  apply (getTargetSize_unknown_id unknownSize).
  - discriminate.
  - intros p Hin. simpl in Hin.
    repeat (destruct Hin as [<- | Hin]; [discriminate|]). destruct Hin.
Defined.

Lemma catalogue_positive (p : PhotoSize.t) :
  In p STANDARD_SIZES -> 0 < PhotoSize.widthCm p /\ 0 < PhotoSize.heightCm p.
Proof.
  intros Hin. simpl in Hin.
  repeat (destruct Hin as [<- | Hin]; [split; reflexivity|]). destruct Hin.
Qed.

Lemma orDefault_nonneg (v : option Q) (d : Q) :
  0 <= d -> (forall q, v = Some q -> 0 <= q) -> 0 <= orDefault v d.
Proof.
  intros Hd Hv. destruct v as [q|]; simpl; [|assumption].
  destruct (Qeq_bool q 0); [assumption | now apply Hv].
Qed.

Lemma getTargetSize_nonneg (s : PrintSettings) :
  validSettings s ->
  0 <= Size.width (getTargetSize s) /\ 0 <= Size.height (getTargetSize s).
Proof.
  intros (_ & Hw & Hh). unfold getTargetSize.
  destruct (String.eqb (sizeId s) "custom").
  - destruct (customUnit s); simpl; split; try assumption; try lra;
      apply Qle_shift_div_l; try reflexivity; lra.
  - remember (find _ STANDARD_SIZES) as size eqn:F. symmetry in F.
    cbn [Size.width Size.height].
    split; apply orDefault_nonneg; try discriminate; intros q Hq;
      destruct size as [p|]; try discriminate;
      apply find_some in F; destruct F as [Hin _];
      destruct (catalogue_positive p Hin) as [Pw Ph];
      cbn in Hq; injection Hq as <-; now apply Qlt_le_weak.
Qed.

Lemma effectiveSlot_nonneg (s : PrintSettings) (img : ImageFile.t) :
  validSettings s ->
  0 <= fst (fst (effectiveSlot s img)) /\ 0 <= snd (fst (effectiveSlot s img)).
Proof.
  intros Hv. destruct (getTargetSize_nonneg s Hv) as [Hw Hh].
  unfold effectiveSlot, orientSlot.
  destruct (orientation s);
    match goal with |- context [if ?b then _ else _] => destruct b end;
    simpl; split; assumption.
Qed.

(** ** Rotation to fit *)

Lemma gtb_div_one (a b : Q) : 0 < b -> gtb (a / b) 1 = gtb a b.
Proof.
  intros Hb. apply eq_true_iff_eq. rewrite !gtb_true, lt_div_iff by assumption.
  split; intros; lra.
Qed.

Lemma ltb_div_one (a b : Q) : 0 < b -> ltb (a / b) 1 = ltb a b.
Proof.
  intros Hb. apply eq_true_iff_eq. rewrite !ltb_true, div_lt_iff by assumption.
  split; intros; lra.
Qed.

(** With positive heights the aspect tests compare width against height. *)
Lemma shouldRotate_compare (slotW slotH imgW imgH : Q) :
  0 < slotH -> 0 < imgH ->
  shouldRotate slotW slotH imgW imgH =
  (gtb slotW slotH && ltb imgW imgH) || (ltb slotW slotH && gtb imgW imgH).
Proof.
  intros Hs Hi. unfold shouldRotate.
  now rewrite !gtb_div_one, !ltb_div_one.
Qed.

(** C5, as the code has it.  For positive slot and source dimensions the
    rotation decision is unchanged when both the slot and the source are
    flipped: [shouldRotate slot src] equals
    [shouldRotate (flip slot) (flip src)]. *)
Theorem shouldRotate_flip_invariant (slotW slotH imgW imgH : Q) :
  0 < slotW -> 0 < slotH -> 0 < imgW -> 0 < imgH ->
  Bool.eqb (shouldRotate slotW slotH imgW imgH)
           (shouldRotate slotH slotW imgH imgW) = true.
Proof.
  intros HsW HsH HiW HiH. rewrite !shouldRotate_compare by assumption.
  unfold ltb, gtb. apply eqb_true_iff.
  destruct (Qle_bool slotW slotH), (Qle_bool slotH slotW),
           (Qle_bool imgW imgH), (Qle_bool imgH imgW); reflexivity.
Qed.

Lemma shouldRotate_flip_invariant_witness :
  Bool.eqb (shouldRotate 10 15 4000 3000) (shouldRotate 15 10 3000 4000) = true.
Proof.
  apply (shouldRotate_flip_invariant 10 15 4000 3000); reflexivity.
Defined.

(** C5 as stated fails: for a 10 by 15 slot and a 4000 by 3000 source the
    decision is to rotate, and it is still to rotate for the 15 by 10 slot
    and the 3000 by 4000 source, so the comparison of the two is not
    false. *)
Lemma shouldRotate_flip_counterexample :
  Bool.eqb (shouldRotate 10 15 4000 3000) (shouldRotate 15 10 3000 4000)
  <> false.
Proof. vm_compute. discriminate. Qed.

(** ** Cover and contain *)

Lemma swapDraw_pos (rotate : bool) (w0 h0 : Q) :
  0 < w0 -> 0 < h0 ->
  0 < fst (swapDraw rotate w0 h0) /\ 0 < snd (swapDraw rotate w0 h0).
Proof. destruct rotate; simpl; auto. Qed.

Lemma currentImgAspect_pos (rotate : bool) (imgW imgH : Q) :
  0 < imgW -> 0 < imgH -> 0 < currentImgAspect rotate imgW imgH.
Proof. destruct rotate; simpl; intros; now apply div_pos. Qed.

(** C6.  In cover mode, for a source and a destination rectangle of
    positive dimensions, the draw call carries a crop whose aspect ratio is
    the destination's.  When the effective source aspect exceeds the
    destination aspect the crop keeps the full source height, is
    [imgH * destAspect] wide and starts at [(imgW - sourceW) / 2];
    otherwise it keeps the full source width, is [imgW / destAspect] high
    and starts at [(imgH - sourceH) * 0.35] from the top. *)
Theorem cover_crop_geometry (rotate : bool)
    (imgW imgH drawX drawY drawW0 drawH0 : Q) :
  0 < imgW -> 0 < imgH -> 0 < drawW0 -> 0 < drawH0 ->
  let drawW := fst (swapDraw rotate drawW0 drawH0) in
  let drawH := snd (swapDraw rotate drawW0 drawH0) in
  let destAspect := drawW / drawH in
  let srcAspect := currentImgAspect rotate imgW imgH in
  exists sourceX sourceY sourceW sourceH,
    fitImage cover rotate imgW imgH drawX drawY drawW0 drawH0 =
      drawImageCrop sourceX sourceY sourceW sourceH drawX drawY drawW drawH
    /\ sourceW / sourceH == destAspect
    /\ (destAspect < srcAspect ->
        sourceH = imgH /\ sourceW = imgH * destAspect /\
        sourceX = (imgW - sourceW) / 2 /\ sourceY = 0)
    /\ (srcAspect <= destAspect ->
        sourceW = imgW /\ sourceH = imgW / destAspect /\
        sourceY = (imgH - sourceH) * 0.35 /\ sourceX = 0).
Proof.
  intros HiW HiH HdW HdH drawW drawH destAspect srcAspect.
  destruct (swapDraw_pos rotate drawW0 drawH0 HdW HdH) as [HW HH].
  fold drawW in HW. fold drawH in HH.
  assert (HA : 0 < destAspect) by now apply div_pos.
  unfold fitImage.
  rewrite (surjective_pairing (swapDraw rotate drawW0 drawH0)).
  fold drawW drawH destAspect srcAspect.
  destruct (gtb_spec srcAspect destAspect) as [Hgt | Hle].
  - exists ((imgW - imgH * destAspect) / 2), 0, (imgH * destAspect), imgH.
    split; [reflexivity|]. split; [field; lra|]. split.
    + intros _. repeat split.
    + intros Hc. lra.
  - exists 0, ((imgH - imgW / destAspect) * 0.35), imgW, (imgW / destAspect).
    split; [reflexivity|]. split; [field; split; lra|]. split.
    + intros Hc. contradiction.
    + intros _. repeat split.
Qed.

Lemma cover_crop_geometry_witness :
  exists sourceX sourceY sourceW sourceH,
    fitImage cover true 4000 3000 0 0 1181 1772 =
      drawImageCrop sourceX sourceY sourceW sourceH 0 0 1772 1181
    /\ sourceW / sourceH == 1772 / 1181.
Proof.
  destruct (cover_crop_geometry true 4000 3000 0 0 1181 1772)
    as (sx & sy & sw & sh & E & A & _); try reflexivity.
  exists sx, sy, sw, sh. split; [exact E | exact A].
Defined.

(** X24.  Contain mode on the path without rotation: the draw call is
    the five-argument form (no source crop); the scaled rectangle has the
    aspect ratio of the source, lies inside the usable rectangle, fills
    its width and is centred vertically when the source is wider than the
    destination, and fills its height and is centred horizontally
    otherwise. *)
Theorem contain_fit_unrotated (imgW imgH drawX drawY drawW drawH : Q) :
  0 < imgW -> 0 < imgH -> 0 < drawW -> 0 < drawH ->
  let destAspect := drawW / drawH in
  let srcAspect := imgW / imgH in
  exists finalX finalY finalW finalH,
    fitImage contain false imgW imgH drawX drawY drawW drawH =
      drawImageFit finalX finalY finalW finalH
    /\ finalW / finalH == srcAspect
    /\ (drawX <= finalX /\ finalX + finalW <= drawX + drawW /\
        drawY <= finalY /\ finalY + finalH <= drawY + drawH)
    /\ (destAspect < srcAspect ->
        finalW = drawW /\ finalX = drawX /\
        finalY - drawY == (drawY + drawH) - (finalY + finalH))
    /\ (srcAspect <= destAspect ->
        finalH = drawH /\ finalY = drawY /\
        finalX - drawX == (drawX + drawW) - (finalX + finalW)).
Proof.
  intros HiW HiH HW HH destAspect srcAspect.
  assert (HS : 0 < srcAspect) by now apply div_pos.
  unfold fitImage, swapDraw, currentImgAspect.
  fold destAspect srcAspect.
  destruct (gtb_spec srcAspect destAspect) as [Hgt | Hle].
  - exists drawX, (drawY + (drawH - drawW / srcAspect) / 2), drawW,
           (drawW / srcAspect).
    assert (Hfit : drawW / srcAspect < drawH).
    { apply div_lt_iff; [assumption|].
      unfold destAspect in Hgt.
      apply (proj1 (div_lt_iff drawW drawH srcAspect HH)) in Hgt. lra. }
    assert (Hpos : 0 < drawW / srcAspect) by now apply div_pos.
    split; [reflexivity|]. split; [field; lra|]. split; [|split].
    + repeat split; qlra.
    + intros _. split; [reflexivity|]. split; [reflexivity|]. qlra.
    + intros Hc. lra.
  - exists (drawX + (drawW - drawH * srcAspect) / 2), drawY,
           (drawH * srcAspect), drawH.
    assert (Hfit : drawH * srcAspect <= drawW).
    { apply Qnot_lt_le in Hle. unfold destAspect in Hle.
      apply (proj1 (le_div_iff srcAspect drawW drawH HH)) in Hle. lra. }
    assert (Hpos : 0 < drawH * srcAspect).
    { rewrite <- (Qmult_0_l srcAspect). now apply Qmult_lt_r. }
    split; [reflexivity|]. split; [field; lra|]. split; [|split].
    + repeat split; qlra.
    + intros Hc. contradiction.
    + intros _. split; [reflexivity|]. split; [reflexivity|]. qlra.
Qed.

Lemma contain_fit_unrotated_witness :
  exists finalX finalY finalW finalH,
    fitImage contain false 4000 3000 0 0 1181 1772 =
      drawImageFit finalX finalY finalW finalH
    /\ finalW / finalH == 4000 / 3000
    /\ (0 <= finalX /\ finalX + finalW <= 0 + 1181 /\
        0 <= finalY /\ finalY + finalH <= 0 + 1772).
Proof.
  destruct (contain_fit_unrotated 4000 3000 0 0 1181 1772)
    as (fx & fy & fw & fh & E & A & B & _); try reflexivity.
  exists fx, fy, fw, fh. split; [exact E|]. split; [exact A | exact B].
Defined.

(** C7 fails on the path with rotation.  With the [landscape] policy,
    the 10 by 15 size and contain mode, a 3000 by 4000 photo gets the
    15 by 10 slot and is rotated.  The draw call then asks for the
    rectangle at (0, 443.125) of size 1181 by 885.75 in the rotated frame:
    the photo is scaled by different factors along its width and its
    height, so its aspect ratio is not kept, and on the 1772 by 1181
    canvas the rectangle lands between y = -295.5 and y = 885.5, partly
    above the canvas, so the whole image is not shown. *)
Theorem contain_rotated_failing_input :
  let slot :=
    nth 0 (nth 0 (calculateLayout containLandscape [portraitPhoto]) [])
        (Placed.mk portraitPhoto 0 0 0 0 false) in
  (Placed.w slot, Placed.h slot, Placed.isRotated slot) = (15, 10, true) /\
  exists finalX finalY finalW finalH,
    pdfDraw containLandscape slot 3000 4000 =
      (true, drawImageFit finalX finalY finalW finalH) /\
    (finalX == 0 /\ finalY == 443.125 /\
     finalW == 1181 /\ finalH == 885.75) /\
    ~ finalW / 3000 == finalH / 4000 /\
    snd (rotatedFrame 0 0 1772 1181 (finalX, finalY)) == - 295.5 /\
    snd (rotatedFrame 0 0 1772 1181 (finalX + finalW, finalY)) == 885.5 /\
    snd (rotatedFrame 0 0 1772 1181 (finalX, finalY)) < 0.
Proof.
  intros slot. split; [reflexivity|].
  eexists. eexists. eexists. eexists.
  split; [vm_compute; reflexivity|].
  split; [repeat split; vm_compute; reflexivity|].
  split; [vm_compute; discriminate|].
  repeat split; vm_compute; reflexivity.
Qed.

(** ** The placement loop, slot by slot *)

Lemma placeItem_allPlaced (s : PrintSettings) (t : Size.t) (c : Cursor)
    (img : ImageFile.t) :
  exists x y,
    allPlaced (placeItem s t c img) =
    allPlaced c ++
    [Placed.mk img x y (fst (fst (orientSlot (orientation s) img t)))
               (snd (fst (orientSlot (orientation s) img t)))
               (snd (orientSlot (orientation s) img t))].
Proof.
  unfold placeItem.
  destruct (orientSlot (orientation s) img t) as [[w h] r]. simpl.
  set (c2 := sealPage s h (wrapRow s w c)).
  exists (currentX c2), (currentY c2).
  assert (E : allPlaced c2 = allPlaced c).
  { unfold c2, sealPage, wrapRow, allPlaced.
    destruct (gtb (currentX c + w) _); simpl;
      destruct (gtb _ _); simpl;
      rewrite ?concat_app; simpl; rewrite ?app_nil_r; reflexivity. }
  rewrite <- E. unfold allPlaced, pushItem. simpl. now rewrite app_assoc.
Qed.

Lemma fold_placeItem_images (s : PrintSettings) (l : list ImageFile.t) :
  forall c,
    map Placed.img (allPlaced (fold_left (placeItem s (getTargetSize s)) l c))
    = map Placed.img (allPlaced c) ++ l.
Proof.
  induction l as [|img l IH]; intros c; simpl.
  - now rewrite app_nil_r.
  - rewrite IH.
    destruct (placeItem_allPlaced s (getTargetSize s) c img) as (x & y & E).
    rewrite E, map_app. simpl. now rewrite <- app_assoc.
Qed.

Lemma fold_placeItem_slots (s : PrintSettings) (l : list ImageFile.t) :
  forall c,
    Forall (slotOf s) (allPlaced c) ->
    Forall (slotOf s) (allPlaced (fold_left (placeItem s (getTargetSize s)) l c)).
Proof.
  induction l as [|img l IH]; intros c Hc; simpl; [assumption|].
  apply IH.
  destruct (placeItem_allPlaced s (getTargetSize s) c img) as (x & y & E).
  rewrite E. apply Forall_app. split; [assumption|].
  constructor; [|constructor].
  unfold slotOf, effectiveSlot. simpl.
  now destruct (orientSlot (orientation s) img (getTargetSize s)) as [[w h] r].
Qed.

Lemma packedPages_concat (s : PrintSettings) (imgs : list ImageFile.t) :
  List.concat (packedPages s imgs) = allPlaced (packItems s imgs).
Proof.
  unfold packedPages, allPlaced.
  destruct (currentImages (packItems s imgs)) as [|i rest].
  - now rewrite app_nil_r.
  - rewrite concat_app. simpl. now rewrite app_nil_r.
Qed.

Lemma centerPage_sameSlot (p : Page) :
  Forall2 sameSlot p (centerPage p).
Proof.
  destruct p as [|i rest]; [constructor|].
  unfold centerPage. generalize (centerOffset i rest). intros d.
  induction (i :: rest) as [|a l IH]; simpl; constructor; auto.
  repeat split.
Qed.

Lemma centerPage_images (p : Page) :
  map Placed.img (centerPage p) = map Placed.img p.
Proof.
  induction (centerPage_sameSlot p) as [|a b l l' H _ IH]; simpl; [reflexivity|].
  destruct H as [-> _]. now rewrite IH.
Qed.

Lemma layout_images (s : PrintSettings) (imgs : list ImageFile.t) :
  map Placed.img (List.concat (calculateLayout s imgs)) = allItemsToPrint imgs.
Proof.
  unfold calculateLayout.
  transitivity (map Placed.img (List.concat (packedPages s imgs))).
  - induction (packedPages s imgs) as [|p ps IH]; simpl; [reflexivity|].
    now rewrite !map_app, IH, centerPage_images.
  - rewrite packedPages_concat. unfold packItems.
    now rewrite fold_placeItem_images.
Qed.

Lemma allItemsToPrint_length (imgs : list ImageFile.t) :
  List.length (allItemsToPrint imgs) = list_sum (map ImageFile.copies imgs).
Proof.
  unfold allItemsToPrint. induction imgs as [|a l IH]; simpl; [reflexivity|].
  now rewrite length_app, repeat_length, IH.
Qed.

(** C2.  For every settings value and every list of images, reading the
    placed slots page after page gives exactly the fan-out of the input:
    each image [copies] times in a row, image after image in input order.
    Hence the number of placed slots over all pages is the sum of the copy
    counts: no copy is dropped and none is placed twice. *)
Theorem layout_places_every_copy (s : PrintSettings) (imgs : list ImageFile.t) :
  map Placed.img (List.concat (calculateLayout s imgs)) =
    flat_map (fun img => repeat img (ImageFile.copies img)) imgs
  /\ list_sum (map (@List.length Placed.t) (calculateLayout s imgs)) =
     list_sum (map ImageFile.copies imgs).
Proof.
  split; [apply layout_images|].
  rewrite <- allItemsToPrint_length, <- (layout_images s imgs), length_map, length_concat.
  reflexivity.
Qed.

(** ** Orientation under the auto policy *)

Lemma Forall2_In_r {A B : Type} (R : A -> B -> Prop) (l : list A) (l' : list B) :
  Forall2 R l l' -> forall b, In b l' -> exists a, In a l /\ R a b.
Proof.
  induction 1 as [|a b0 l l' H _ IH]; intros b Hin; [destruct Hin|].
  destruct Hin as [<- | Hin].
  - exists a. split; [now left | assumption].
  - destruct (IH b Hin) as (a' & Ha & Hr). exists a'. split; [now right | assumption].
Qed.

Lemma layout_origin (s : PrintSettings) (imgs : list ImageFile.t)
    (page : Page) (i : Placed.t) :
  In page (calculateLayout s imgs) -> In i page ->
  exists i0, In i0 (allPlaced (packItems s imgs)) /\ sameSlot i0 i.
Proof.
  unfold calculateLayout. intros Hp Hi.
  apply in_map_iff in Hp. destruct Hp as (p0 & <- & Hp0).
  destruct (Forall2_In_r _ _ _ (centerPage_sameSlot p0) i Hi) as (i0 & Hi0 & Hs).
  exists i0. split; [|assumption].
  rewrite <- packedPages_concat. apply in_concat. now exists p0.
Qed.

Lemma layout_slots (s : PrintSettings) (imgs : list ImageFile.t)
    (page : Page) (i : Placed.t) :
  In page (calculateLayout s imgs) -> In i page -> slotOf s i.
Proof.
  intros Hp Hi.
  destruct (layout_origin s imgs page i Hp Hi) as (i0 & Hi0 & Hs).
  assert (H0 : slotOf s i0).
  { assert (F : Forall (slotOf s) (allPlaced (packItems s imgs))).
    { apply fold_placeItem_slots. constructor. }
    rewrite Forall_forall in F. now apply F. }
  destruct Hs as (E1 & _ & E3 & E4 & E5).
  unfold slotOf in *. now rewrite E1, E3, E4, E5.
Qed.

(** C4, as the code has it.  Under the [auto] policy an image whose pixel
    dimensions are unknown (0 by 0) counts as not landscape.  When the
    natural slot is not landscape (width <= height) the slot is kept and
    the rotated flag is false; when the natural slot is landscape
    (width > height) the slot is swapped and the rotated flag is true. *)
Theorem auto_unknown_dimensions (s : PrintSettings) (imgs : list ImageFile.t)
    (page : Page) (i : Placed.t) :
  orientation s = auto ->
  In page (calculateLayout s imgs) -> In i page ->
  ImageFile.width (Placed.img i) == 0 ->
  ImageFile.height (Placed.img i) == 0 ->
  let t := getTargetSize s in
  (Size.width t <= Size.height t ->
     Placed.w i = Size.width t /\ Placed.h i = Size.height t /\
     Placed.isRotated i = false) /\
  (Size.height t < Size.width t ->
     Placed.w i = Size.height t /\ Placed.h i = Size.width t /\
     Placed.isRotated i = true).
Proof.
  intros Ho Hp Hi Hw Hh t.
  pose proof (layout_slots s imgs page i Hp Hi) as E.
  unfold slotOf, effectiveSlot, orientSlot in E. rewrite Ho in E. fold t in E.
  assert (Hi0 : gtb (ImageFile.width (Placed.img i))
                    (ImageFile.height (Placed.img i)) = false).
  { apply gtb_false. rewrite Hw, Hh. apply Qle_refl. }
  rewrite Hi0 in E.
  destruct (gtb_spec (Size.width t) (Size.height t)) as [Hgt | Hle];
    simpl in E; injection E as E1 E2 E3; split; intros Hc.
  - exfalso. exact (Qlt_not_le _ _ Hgt Hc).
  - now rewrite E1, E2, E3.
  - now rewrite E1, E2, E3.
  - contradiction.
Qed.

Lemma auto_unknown_dimensions_witness :
  Placed.isRotated
    (nth 0 (nth 0 (calculateLayout customLandscape [unknownImage "a"]) [])
         (Placed.mk (unknownImage "a") 0 0 0 0 false)) = true.
Proof.
  apply (auto_unknown_dimensions customLandscape [unknownImage "a"]
           (nth 0 (calculateLayout customLandscape [unknownImage "a"]) [])).
  - reflexivity.
  - vm_compute. left. reflexivity.
  - vm_compute. left. reflexivity.
  - vm_compute. reflexivity.
  - vm_compute. reflexivity.
  - vm_compute. reflexivity.
Defined.

(** C4 as stated fails for a landscape natural slot: with the custom slot
    of 15 cm by 10 cm, the undecoded image is placed in a 10 by 15 slot
    with the rotated flag set. *)
Lemma auto_unknown_dimensions_counterexample :
  ~ (forall page i,
       In page (calculateLayout customLandscape [unknownImage "a"]) ->
       In i page ->
       Placed.w i = Size.width (getTargetSize customLandscape) /\
       Placed.h i = Size.height (getTargetSize customLandscape) /\
       Placed.isRotated i = false).
Proof.
  intros H.
  set (l := calculateLayout customLandscape [unknownImage "a"]) in *.
  destruct (H (nth 0 l []) (nth 0 (nth 0 l []) (Placed.mk (unknownImage "a") 0 0 0 0 false)))
    as (_ & _ & Hr).
  - vm_compute. left. reflexivity.
  - vm_compute. left. reflexivity.
  - vm_compute in Hr. discriminate.
Qed.

(** ** Scenario 1 *)

(** C3, as the code has it.  Three undecoded images, slot 10 by 15,
    margin 0.3, spacing 0.2, on the 21 by 29.7 page: the first two share
    one row of the first page at y = 0.3, at x = 0.3 + 0.1 and
    x = 10.5 + 0.1 after centring; the third wraps, does not fit below
    them, and is alone on a second page, centred at x = 5.5, y = 0.3. *)
Theorem scenario1_layout :
  map pageCoords (calculateLayout defaultSettings scenario1) =
  [ [ (Qred (0.3 + 0.1), Qred 0.3, 10, 15, false);
      (Qred (10.5 + 0.1), Qred 0.3, 10, 15, false) ];
    [ (Qred 5.5, Qred 0.3, 10, 15, false) ] ].
Proof. vm_compute. reflexivity. Qed.

(** C3 as stated fails: the three slots are not on one page. *)
Lemma scenario1_counterexample :
  ~ (exists page, calculateLayout defaultSettings scenario1 = [page]
                  /\ List.length page = 3%nat).
Proof.
  intros (page & E & _). apply (f_equal (@List.length Page)) in E.
  vm_compute in E. discriminate.
Qed.

(** ** Extent of a page and the centring pass *)

Lemma Math_min_le_head (xs : list Q) : forall x, Math_min x xs <= x.
Proof.
  induction xs as [|y ys IH]; intros x; simpl; [apply Qle_refl|].
  eapply Qle_trans; [apply IH | apply Q.le_min_l].
Qed.

Lemma Math_min_le_in (xs : list Q) :
  forall x y, In y xs -> Math_min x xs <= y.
Proof.
  induction xs as [|z zs IH]; intros x y Hin; [destruct Hin|].
  simpl. destruct Hin as [<- | Hin].
  - eapply Qle_trans; [apply Math_min_le_head | apply Q.le_min_r].
  - now apply IH.
Qed.

Lemma Math_min_glb (b : Q) (xs : list Q) :
  forall x, b <= x -> Forall (Qle b) xs -> b <= Math_min x xs.
Proof.
  induction xs as [|y ys IH]; intros x Hx Hxs; simpl; [assumption|].
  inversion Hxs; subst. apply IH; [|assumption]. now apply Q.min_glb.
Qed.

Lemma Math_max_ge_head (xs : list Q) : forall x, x <= Math_max x xs.
Proof.
  induction xs as [|y ys IH]; intros x; simpl; [apply Qle_refl|].
  eapply Qle_trans; [apply Q.le_max_l | apply IH].
Qed.

Lemma Math_max_ge_in (xs : list Q) :
  forall x y, In y xs -> y <= Math_max x xs.
Proof.
  induction xs as [|z zs IH]; intros x y Hin; [destruct Hin|].
  simpl. destruct Hin as [<- | Hin].
  - eapply Qle_trans; [apply Q.le_max_r | apply Math_max_ge_head].
  - now apply IH.
Qed.

Lemma Math_max_lub (b : Q) (xs : list Q) :
  forall x, x <= b -> Forall (fun y => y <= b) xs -> Math_max x xs <= b.
Proof.
  induction xs as [|y ys IH]; intros x Hx Hxs; simpl; [assumption|].
  inversion Hxs; subst. apply IH; [|assumption]. now apply Q.max_lub.
Qed.

Lemma pageMinX_le (p : Page) (i : Placed.t) :
  In i p -> pageMinX p <= Placed.x i.
Proof.
  destruct p as [|a rest]; intros Hin; [destruct Hin|].
  simpl. destruct Hin as [<- | Hin].
  - apply Math_min_le_head.
  - apply Math_min_le_in. now apply in_map.
Qed.

Lemma pageMinX_glb (b : Q) (p : Page) :
  p <> [] -> Forall (fun i => b <= Placed.x i) p -> b <= pageMinX p.
Proof.
  destruct p as [|a rest]; intros Hne H; [now elim Hne|].
  inversion H; subst. simpl. apply Math_min_glb; [assumption|].
  now apply Forall_map.
Qed.

Lemma pageMaxX_ge (p : Page) (i : Placed.t) :
  In i p -> right i <= pageMaxX p.
Proof.
  destruct p as [|a rest]; intros Hin; [destruct Hin|].
  simpl. destruct Hin as [<- | Hin].
  - apply Math_max_ge_head.
  - apply Math_max_ge_in. now apply in_map.
Qed.

Lemma pageMaxX_lub (b : Q) (p : Page) :
  p <> [] -> Forall (fun i => right i <= b) p -> pageMaxX p <= b.
Proof.
  destruct p as [|a rest]; intros Hne H; [now elim Hne|].
  inversion H; subst. simpl. apply Math_max_lub; [assumption|].
  now apply Forall_map.
Qed.

Lemma shiftX_nonempty (d : Q) (p : Page) : p <> [] -> map (shiftX d) p <> [].
Proof. destruct p; [intros H; now elim H | discriminate]. Qed.

Lemma pageMinX_shift (d : Q) (p : Page) :
  p <> [] -> pageMinX (map (shiftX d) p) == pageMinX p + d.
Proof.
  intros Hne. apply Qle_antisym.
  - assert (H : pageMinX (map (shiftX d) p) - d <= pageMinX p).
    { apply pageMinX_glb; [assumption|]. apply Forall_forall. intros i Hi.
      pose proof (pageMinX_le (map (shiftX d) p) (shiftX d i) (in_map _ _ _ Hi)) as L.
      simpl in L. lra. }
    lra.
  - apply pageMinX_glb; [now apply shiftX_nonempty|].
    apply Forall_forall. intros j Hj. apply in_map_iff in Hj.
    destruct Hj as (i & <- & Hi). simpl.
    pose proof (pageMinX_le p i Hi). lra.
Qed.

Lemma pageMaxX_shift (d : Q) (p : Page) :
  p <> [] -> pageMaxX (map (shiftX d) p) == pageMaxX p + d.
Proof.
  intros Hne. apply Qle_antisym.
  - apply pageMaxX_lub; [now apply shiftX_nonempty|].
    apply Forall_forall. intros j Hj. apply in_map_iff in Hj.
    destruct Hj as (i & <- & Hi). unfold right. simpl.
    pose proof (pageMaxX_ge p i Hi) as L. unfold right in L. lra.
  - assert (H : pageMaxX p <= pageMaxX (map (shiftX d) p) - d).
    { apply pageMaxX_lub; [assumption|]. apply Forall_forall. intros i Hi.
      pose proof (pageMaxX_ge (map (shiftX d) p) (shiftX d i) (in_map _ _ _ Hi)) as L.
      unfold right in *. simpl in L. lra. }
    lra.
Qed.

Lemma centerPage_shift (p : Page) :
  p <> [] ->
  centerPage p =
  map (shiftX ((pageWidth - (pageMaxX p - pageMinX p)) / 2 - pageMinX p)) p.
Proof. destruct p; [intros H; now elim H | reflexivity]. Qed.

(** C8.  For every non-empty page the packer produces, the centring pass
    moves every slot of the page by the one offset
    [(pageWidth - contentWidth) / 2 - minX]; each slot keeps its image, y,
    width, height and rotated flag; afterwards the least x and the
    greatest x + w of the page are symmetric about [pageWidth / 2]. *)
Theorem centering_pass (s : PrintSettings) (imgs : list ImageFile.t)
    (n : nat) (before : Page) :
  nth_error (packedPages s imgs) n = Some before -> before <> [] ->
  let offsetX :=
    (pageWidth - (pageMaxX before - pageMinX before)) / 2 - pageMinX before in
  exists after,
    nth_error (calculateLayout s imgs) n = Some after /\
    Forall2 (fun a b => Placed.x b = Placed.x a + offsetX /\ sameSlot a b)
            before after /\
    pageWidth / 2 - pageMinX after == pageMaxX after - pageWidth / 2.
Proof.
  intros Hn Hne offsetX. exists (centerPage before).
  split; [|split].
  - unfold calculateLayout. now apply map_nth_error.
  - rewrite centerPage_shift by assumption. fold offsetX.
    clearbody offsetX. clear Hn Hne.
    induction before as [|a l IH]; simpl; constructor; [|exact IH].
    split; [reflexivity | repeat split].
  - rewrite centerPage_shift by assumption. fold offsetX.
    rewrite pageMinX_shift, pageMaxX_shift by assumption.
    unfold offsetX. qlra.
Qed.

Lemma centering_pass_witness :
  exists after,
    nth_error (calculateLayout defaultSettings scenario1) 0 = Some after /\
    pageWidth / 2 - pageMinX after == pageMaxX after - pageWidth / 2.
Proof.
  destruct (centering_pass defaultSettings scenario1 0
              (nth 0 (packedPages defaultSettings scenario1) []))
    as (after & H1 & _ & H3).
  - vm_compute. reflexivity.
  - vm_compute. discriminate.
  - exists after. split; [exact H1 | exact H3].
Defined.

(** ** Overlap *)

Lemma overlaps_clear_x (a b : Placed.t) :
  Placed.x a + Placed.w a <= Placed.x b -> overlaps a b = false.
Proof.
  intros H. unfold overlaps. apply (ltb_false (Placed.x b)) in H.
  rewrite H. now rewrite andb_false_r.
Qed.

Lemma overlaps_clear_y (a b : Placed.t) :
  Placed.y a + Placed.h a <= Placed.y b -> overlaps a b = false.
Proof.
  intros H. unfold overlaps. apply (ltb_false (Placed.y b)) in H.
  rewrite H. now rewrite andb_false_r.
Qed.

Lemma overlaps_sym (a b : Placed.t) : overlaps a b = overlaps b a.
Proof.
  unfold overlaps.
  destruct (ltb (Placed.x a) _), (ltb (Placed.x b) _),
           (ltb (Placed.y a) _), (ltb (Placed.y b) _); reflexivity.
Qed.

Lemma ltb_shift (a b c d : Q) : ltb (a + d) (b + d + c) = ltb a (b + c).
Proof.
  apply eq_true_iff_eq. rewrite !ltb_true. split; intros; lra.
Qed.

Lemma overlaps_shift (d : Q) (a b : Placed.t) :
  overlaps (shiftX d a) (shiftX d b) = overlaps a b.
Proof.
  unfold overlaps. simpl. now rewrite !ltb_shift.
Qed.

Lemma NoOverlap_snoc (l : Page) (n : Placed.t) :
  NoOverlap l -> Forall (fun a => overlaps a n = false) l ->
  NoOverlap (l ++ [n]).
Proof.
  unfold NoOverlap. induction 1 as [|a l Ha Hl IH]; intros Hn; simpl.
  - constructor; constructor.
  - inversion Hn; subst. constructor.
    + apply Forall_app. split; [assumption|]. now constructor.
    + now apply IH.
Qed.

Lemma NoOverlap_shift (d : Q) (l : Page) :
  NoOverlap l -> NoOverlap (map (shiftX d) l).
Proof.
  unfold NoOverlap. induction 1 as [|a l Ha Hl IH]; simpl; constructor.
  - apply Forall_map. eapply Forall_impl; [|exact Ha].
    intros b Hb. simpl. now rewrite overlaps_shift.
  - exact IH.
Qed.

Lemma NoOverlap_ordered (l : Page) :
  NoOverlap l ->
  forall i j a b, (i < j)%nat ->
    nth_error l i = Some a -> nth_error l j = Some b -> overlaps a b = false.
Proof.
  unfold NoOverlap. induction 1 as [|c l Hc Hl IH]; intros i j a b Hij Ha Hb.
  - destruct i; discriminate.
  - destruct j as [|j]; [lia|]. simpl in Hb. destruct i as [|i].
    + simpl in Ha. injection Ha as <-.
      rewrite Forall_forall in Hc. apply Hc. eapply nth_error_In; eassumption.
    + simpl in Ha. apply (IH i j); [lia | assumption | assumption].
Qed.

Lemma NoOverlap_nth (l : Page) :
  NoOverlap l ->
  forall i j a b, i <> j ->
    nth_error l i = Some a -> nth_error l j = Some b -> overlaps a b = false.
Proof.
  intros H i j a b Hij Ha Hb.
  destruct (Nat.lt_ge_cases i j) as [Hlt | Hge].
  - exact (NoOverlap_ordered l H i j a b Hlt Ha Hb).
  - rewrite overlaps_sym.
    apply (NoOverlap_ordered l H j i b a); [lia | assumption | assumption].
Qed.

Lemma allItemsToPrint_Forall (P : ImageFile.t -> Prop) (imgs : list ImageFile.t) :
  Forall P imgs -> Forall P (allItemsToPrint imgs).
Proof.
  intros H. apply Forall_forall. intros i Hi. unfold allItemsToPrint in Hi.
  apply in_flat_map in Hi. destruct Hi as (a & Ha & Hr).
  apply repeat_spec in Hr. subst i. rewrite Forall_forall in H. now apply H.
Qed.

(** ** The packing invariant *)

Section PackingInvariant.

Variable s : PrintSettings.
Hypothesis Hvalid : validSettings s.

Lemma packedPage_nil : packedPage s [].
Proof.
  split; [constructor|]. split; [constructor|]. intros H. now elim H.
Qed.

Lemma cursorInv_start : cursorInv s (startCursor s).
Proof.
  constructor; simpl; try apply Qle_refl.
  - constructor.
  - apply packedPage_nil.
  - constructor.
  - intros _. reflexivity.
Qed.

(** A wrap leaves every slot of the page above the new row. *)
Lemma wrapRow_inv (w : Q) (c : Cursor) :
  cursorInv s c -> cursorInv s (wrapRow s w c).
Proof.
  destruct Hvalid as (Hsp & _).
  intros [Hp Hc Hb Hx Hy Hr Hf]. unfold wrapRow.
  destruct (gtb _ _); constructor; simpl; try assumption.
  - eapply Forall_impl; [|exact Hb].
    intros i [Hi _]. unfold behindCursor. simpl. split; [lra|]. left. lra.
  - apply Qle_refl.
  - lra.
  - apply Qle_refl.
  - intros _. reflexivity.
Qed.

(** After the row test a slot that fits the printable width ends inside
    the tolerance. *)
Lemma wrapRow_fits (w : Q) (c : Cursor) :
  w <= pageWidth - 2 * margin s ->
  currentX (wrapRow s w c) + w <= pageWidth - margin s + epsilon.
Proof.
  intros Hw. unfold wrapRow, epsilon.
  destruct (gtb_spec (currentX c + w) (pageWidth - margin s + 0.001)) as [H|H];
    simpl; lra.
Qed.

Lemma sealPage_inv (h : Q) (c : Cursor) :
  cursorInv s c -> cursorInv s (sealPage s h c).
Proof.
  intros [Hp Hc Hb Hx Hy Hr Hf]. unfold sealPage.
  destruct (gtb _ _); constructor; simpl; try assumption;
    try apply Qle_refl.
  - apply Forall_app. split; [assumption|]. now constructor.
  - apply packedPage_nil.
  - constructor.
  - intros _. reflexivity.
Qed.

Lemma sealPage_fits (w h : Q) (c : Cursor) :
  w <= pageWidth - 2 * margin s ->
  h <= pageHeight - 2 * margin s ->
  currentX c + w <= pageWidth - margin s + epsilon ->
  currentX (sealPage s h c) + w <= pageWidth - margin s + epsilon /\
  currentY (sealPage s h c) + h <= pageHeight - margin s + epsilon.
Proof.
  intros Hw Hh Hx. unfold sealPage. unfold epsilon in *.
  destruct (gtb_spec (currentY c + h) (pageHeight - margin s + 0.001)) as [H|H];
    simpl; split; lra.
Qed.

(** The new slot is clear of every slot behind the cursor. *)
Lemma behindCursor_clear (img : ImageFile.t) (w h : Q) (r : bool)
    (c : Cursor) (i : Placed.t) :
  behindCursor c i ->
  overlaps i (Placed.mk img (currentX c) (currentY c) w h r) = false.
Proof.
  intros [_ [Hi | [_ Hi]]].
  - now apply overlaps_clear_y.
  - now apply overlaps_clear_x.
Qed.

Lemma pushItem_inv (img : ImageFile.t) (w h : Q) (r : bool) (c : Cursor) :
  0 <= w -> 0 <= h ->
  currentX c + w <= pageWidth - margin s + epsilon ->
  currentY c + h <= pageHeight - margin s + epsilon ->
  cursorInv s c -> cursorInv s (pushItem s img w h r c).
Proof.
  destruct Hvalid as (Hsp & _).
  intros Hw Hh HX HY [Hp [Hc1 [Hc2 Hc3]] Hb Hx Hy Hr Hf].
  pose proof (Q.le_max_l (rowHeight c) h) as Ml.
  pose proof (Q.le_max_r (rowHeight c) h) as Mr.
  constructor; simpl; try assumption.
  - split; [|split].
    + apply Forall_app. split; [assumption|].
      constructor; [|constructor]. unfold packedSlot. simpl.
      repeat split; assumption.
    + apply NoOverlap_snoc; [assumption|].
      eapply Forall_impl; [|exact Hb].
      intros i. apply behindCursor_clear.
    + intros _. destruct (currentImages c) as [|a l] eqn:E.
      * simpl. constructor. simpl. now apply Hf.
      * apply Exists_app. left. apply Hc3. discriminate.
  - apply Forall_app. split.
    + eapply Forall_impl; [|exact Hb].
      intros i [Hi1 Hi2]. unfold behindCursor. simpl. split; [lra|].
      destruct Hi2 as [Hi2 | [Hi2 Hi3]]; [now left | right].
      split; [assumption | lra].
    + constructor; [|constructor]. unfold behindCursor. simpl.
      split; [lra|]. right. split; [reflexivity | lra].
  - lra.
  - eapply Qle_trans; [exact Hr | exact Ml].
  - intros E. now destruct (currentImages c).
Qed.

Lemma placeItem_inv (c : Cursor) (img : ImageFile.t) :
  fitsPrintable s img ->
  cursorInv s c -> cursorInv s (placeItem s (getTargetSize s) c img).
Proof.
  intros (Hfw & Hfh) Hinv.
  destruct (effectiveSlot_nonneg s img Hvalid) as [Hw Hh].
  unfold effectiveSlot in *. unfold placeItem.
  destruct (orientSlot (orientation s) img (getTargetSize s)) as [[w h] r].
  simpl in Hw, Hh, Hfw, Hfh.
  pose proof (wrapRow_fits w c Hfw) as F1.
  destruct (sealPage_fits w h (wrapRow s w c) Hfw Hfh F1) as [F2 F3].
  apply pushItem_inv; try assumption.
  apply sealPage_inv. now apply wrapRow_inv.
Qed.

Lemma fold_placeItem_inv (l : list ImageFile.t) :
  Forall (fitsPrintable s) l ->
  forall c, cursorInv s c ->
    cursorInv s (fold_left (placeItem s (getTargetSize s)) l c).
Proof.
  induction 1 as [|img l Hi Hl IH]; intros c Hc; simpl; [assumption|].
  apply IH. now apply placeItem_inv.
Qed.

Lemma packedPages_packed (imgs : list ImageFile.t) :
  Forall (fitsPrintable s) imgs ->
  Forall (packedPage s) (packedPages s imgs).
Proof.
  intros Hfit.
  assert (I : cursorInv s (packItems s imgs)).
  { apply fold_placeItem_inv; [| apply cursorInv_start].
    now apply allItemsToPrint_Forall. }
  destruct I as [Hp Hc _ _ _ _ _]. unfold packedPages.
  destruct (currentImages (packItems s imgs)); [assumption|].
  apply Forall_app. split; [assumption|]. now constructor.
Qed.

(** A packed page is printable as it stands. *)
Lemma packedPage_printable (p : Page) :
  packedPage s p -> NoOverlap p /\ Forall (withinPrintable s) p.
Proof.
  intros (Hslots & Hno & _). split; [assumption|].
  eapply Forall_impl; [|exact Hslots].
  intros i (Hx & Hxw & Hy & Hyh). unfold withinPrintable, epsilon in *.
  repeat split; lra.
Qed.

(** Centring keeps a packed page printable: the leftmost slot is at the
    margin and the rightmost ends within the tolerance, so the offset is
    at least half the tolerance below zero. *)
Lemma centerPage_printable (p : Page) :
  packedPage s p ->
  NoOverlap (centerPage p) /\ Forall (withinPrintable s) (centerPage p).
Proof.
  intros (Hslots & Hno & Hleft).
  destruct p as [|a rest] eqn:Ep; [split; constructor|].
  rewrite <- Ep in *.
  assert (Hne : p <> []) by (rewrite Ep; discriminate).
  rewrite centerPage_shift by assumption.
  split; [now apply NoOverlap_shift|].
  assert (Hmin : pageMinX p == margin s).
  { apply Qle_antisym.
    - specialize (Hleft Hne). apply Exists_exists in Hleft.
      destruct Hleft as (i & Hi & Hx).
      rewrite <- Hx. now apply pageMinX_le.
    - apply pageMinX_glb; [assumption|].
      eapply Forall_impl; [|exact Hslots]. intros i Hi. apply Hi. }
  assert (Hmax : pageMaxX p <= pageWidth - margin s + epsilon).
  { apply pageMaxX_lub; [assumption|].
    eapply Forall_impl; [|exact Hslots]. intros i Hi. apply Hi. }
  apply Forall_forall. intros j Hj. apply in_map_iff in Hj.
  destruct Hj as (i & <- & Hi).
  pose proof (pageMaxX_ge p i Hi) as Hr. unfold right in Hr.
  rewrite Forall_forall in Hslots.
  destruct (Hslots i Hi) as (Hx & _ & Hy & Hyh).
  unfold withinPrintable. simpl. unfold epsilon in *.
  repeat split; qlra.
Qed.

End PackingInvariant.

(** C1.  With settings that meet the data model (no negative spacing or
    custom extent) and images whose effective slots fit the printable
    area, every page of the layout, as packed and after the centring pass,
    has no two slots that overlap, and every slot lies within
    [margin, pageWidth - margin] by [margin, pageHeight - margin] up to
    the 0.001 tolerance. *)
Theorem layout_no_overlap_within_bounds (s : PrintSettings)
    (imgs : list ImageFile.t) :
  validSettings s ->
  Forall (fitsPrintable s) imgs ->
  forall page,
    In page (packedPages s imgs) \/ In page (calculateLayout s imgs) ->
    (forall i j a b, i <> j ->
       nth_error page i = Some a -> nth_error page j = Some b ->
       overlaps a b = false)
    /\ Forall (withinPrintable s) page.
Proof.
  intros Hv Hfit page Hin.
  pose proof (packedPages_packed s Hv imgs Hfit) as Hall.
  rewrite Forall_forall in Hall.
  assert (H : NoOverlap page /\ Forall (withinPrintable s) page).
  { destruct Hin as [Hin | Hin].
    - apply packedPage_printable. now apply Hall.
    - unfold calculateLayout in Hin. apply in_map_iff in Hin.
      destruct Hin as (p & <- & Hp).
      apply centerPage_printable. now apply Hall. }
  destruct H as [Hno Hwithin]. split; [|assumption].
  intros i j a b. now apply NoOverlap_nth.
Qed.

Lemma layout_no_overlap_within_bounds_witness :
  Forall (fun page =>
            (forall i j a b, i <> j ->
               nth_error page i = Some a -> nth_error page j = Some b ->
               overlaps a b = false)
            /\ Forall (withinPrintable defaultSettings) page)
         (calculateLayout defaultSettings scenario1).
Proof.
  apply Forall_forall. intros page Hin.
  apply (layout_no_overlap_within_bounds defaultSettings scenario1).
  - repeat split; vm_compute; discriminate.
  - repeat constructor; vm_compute; discriminate.
  - right. exact Hin.
Defined.

(** * Further properties of the code *)

(** Turns the recorded outcomes of comparisons into inequalities. *)
Ltac cmp_cases :=
  repeat match goal with
    | H : gtb _ _ = true |- _ => apply gtb_true in H
    | H : gtb _ _ = false |- _ => apply gtb_false in H
    | H : ltb _ _ = true |- _ => apply ltb_true in H
    | H : ltb _ _ = false |- _ => apply ltb_false in H
    end.

(** ** lib/utils *)

(** X1.  Pixels and centimetres convert back and forth without loss at
    any non-zero resolution, in exact arithmetic. *)
Theorem px_cm_round_trip (v dpi : Q) :
  ~ dpi == 0 ->
  pxToCm (cmToPx v dpi) dpi == v /\ cmToPx (pxToCm v dpi) dpi == v.
Proof.
  intros Hd. unfold pxToCm, cmToPx. split; field; assumption.
Qed.

Lemma px_cm_round_trip_witness :
  pxToCm (cmToPx 10 300) 300 == 10 /\ cmToPx (pxToCm 10 300) 300 == 10.
Proof.
  apply (px_cm_round_trip 10 300). vm_compute. discriminate.
Defined.

(** ** The gallery *)

Lemma updateCopies_at_least_one (c : nat) (delta : Z) :
  (1 <= Z.to_nat (Z.max 1 (Z.of_nat c + delta)))%nat.
Proof. lia. Qed.

Lemma applyEvent_copies (imgs : list ImageFile.t) (e : GalleryEvent) :
  Forall (fun i => (1 <= ImageFile.copies i)%nat) imgs ->
  Forall (fun i => (1 <= ImageFile.copies i)%nat) (applyEvent imgs e).
Proof.
  intros H. destruct e as [files | id w h | id | id delta]; simpl.
  - unfold handleFileUpload. apply Forall_app. split; [assumption|].
    apply Forall_map. apply Forall_forall. intros f _. simpl. lia.
  - unfold onImageLoad. apply Forall_map.
    eapply Forall_impl; [|exact H]. intros i Hi.
    destruct (String.eqb _ _); assumption.
  - apply Forall_forall. intros i Hi. apply filter_In in Hi.
    rewrite Forall_forall in H. now apply H.
  - unfold updateCopies. apply Forall_map.
    eapply Forall_impl; [|exact H]. intros i Hi.
    destruct (String.eqb _ _); [apply updateCopies_at_least_one | assumption].
Qed.

(** X2.  Whatever is uploaded, loaded, removed or re-counted, every image
    of the gallery keeps at least one copy. *)
Theorem gallery_copies_positive (events : list GalleryEvent) :
  Forall (fun i => (1 <= ImageFile.copies i)%nat) (gallery events).
Proof.
  unfold gallery.
  assert (G : forall imgs,
             Forall (fun i => (1 <= ImageFile.copies i)%nat) imgs ->
             Forall (fun i => (1 <= ImageFile.copies i)%nat)
                    (fold_left applyEvent events imgs)).
  { induction events as [|e es IH]; intros imgs H; simpl; [assumption|].
    apply IH. now apply applyEvent_copies. }
  apply G. constructor.
Qed.

(** X3.  One more copy and then one fewer gives back the gallery, as long
    as every image has at least one copy. *)
Theorem updateCopies_up_down (id : string) (imgs : list ImageFile.t) :
  Forall (fun i => (1 <= ImageFile.copies i)%nat) imgs ->
  updateCopies id (-1) (updateCopies id 1 imgs) = imgs.
Proof.
  induction 1 as [|i l Hi Hl IH]; simpl; [reflexivity|].
  fold (updateCopies id 1 l). fold (updateCopies id (-1) (updateCopies id 1 l)).
  rewrite IH. f_equal.
  destruct (String.eqb (ImageFile.id i) id) eqn:E; simpl; rewrite E; [|reflexivity].
  destruct i as [i0 u c w h]. simpl in *. f_equal. lia.
Qed.

Lemma updateCopies_up_down_witness :
  updateCopies "l" (-1) (updateCopies "l" 1 [landscapeImage]) = [landscapeImage].
Proof.
  apply (updateCopies_up_down "l" [landscapeImage]).
  repeat constructor.
Defined.

(** X4.  One copy fewer saturates at one: it changes nothing in a gallery
    whose images all have a single copy. *)
Theorem updateCopies_floor (id : string) (imgs : list ImageFile.t) :
  Forall (fun i => ImageFile.copies i = 1%nat) imgs ->
  updateCopies id (-1) imgs = imgs.
Proof.
  induction 1 as [|i l Hi Hl IH]; simpl; [reflexivity|].
  fold (updateCopies id (-1) l). rewrite IH. f_equal.
  destruct (String.eqb (ImageFile.id i) id); [|reflexivity].
  destruct i as [i0 u c w h]. simpl in *. subst c. reflexivity.
Qed.

Lemma updateCopies_floor_witness :
  updateCopies "a" (-1) scenario1 = scenario1.
Proof.
  apply (updateCopies_floor "a" scenario1). repeat constructor.
Defined.

(** X5.  Removing an id leaves no image with that id and keeps every
    other image; an object URL is revoked exactly when some image had the
    id; removing an id that is absent changes nothing. *)
Theorem removeImage_spec (id : string) (imgs : list ImageFile.t) :
  let r := removeImage id imgs in
  (forall i, In i (snd r) <-> In i imgs /\ ImageFile.id i <> id) /\
  (fst r <> None <-> exists i, In i imgs /\ ImageFile.id i = id) /\
  ((forall i, In i imgs -> ImageFile.id i <> id) -> snd r = imgs).
Proof.
  simpl. split; [|split].
  - intros i. rewrite filter_In, negb_true_iff, String.eqb_neq. reflexivity.
  - destruct (find _ imgs) as [j|] eqn:F; simpl.
    + apply find_some in F. destruct F as [Hin E]. apply String.eqb_eq in E.
      split; [intros _; now exists j | discriminate].
    + split; [intros H; now elim H|].
      intros (i & Hin & E). exfalso.
      pose proof (find_none _ _ F i Hin) as N. simpl in N.
      apply String.eqb_neq in N. contradiction.
  - intros H. induction imgs as [|a l IH]; simpl; [reflexivity|].
    assert (E : String.eqb (ImageFile.id a) id = false).
    { apply String.eqb_neq. apply H. now left. }
    rewrite E. simpl. f_equal. apply IH. intros i Hi. apply H. now right.
Qed.

(** X6.  Storing a decoded size, or changing a copy count, keeps the ids
    and their order; storing a decoded size also keeps every copy count,
    so the number of slots to print is the same before and after an image
    has loaded. *)
Theorem onImageLoad_keeps_counts (id : string) (w h : Q)
    (delta : Z) (imgs : list ImageFile.t) :
  map ImageFile.id (onImageLoad id w h imgs) = map ImageFile.id imgs /\
  map ImageFile.copies (onImageLoad id w h imgs) = map ImageFile.copies imgs /\
  map ImageFile.id (updateCopies id delta imgs) = map ImageFile.id imgs /\
  List.length (allItemsToPrint (onImageLoad id w h imgs)) =
  List.length (allItemsToPrint imgs).
Proof.
  assert (A : map ImageFile.id (onImageLoad id w h imgs) = map ImageFile.id imgs).
  { unfold onImageLoad. rewrite map_map. apply map_ext. intros a.
    now destruct (String.eqb _ _). }
  assert (B : map ImageFile.copies (onImageLoad id w h imgs)
              = map ImageFile.copies imgs).
  { unfold onImageLoad. rewrite map_map. apply map_ext. intros a.
    now destruct (String.eqb _ _). }
  split; [exact A|]. split; [exact B|]. split.
  - unfold updateCopies. rewrite map_map. apply map_ext. intros a.
    now destruct (String.eqb _ _).
  - now rewrite !allItemsToPrint_length, B.
Qed.

(** ** The preview page *)

(** X7.  After the effect the preview page is a valid page index whenever
    there is a page, is 0 when there is none, and is left alone when it
    was valid already. *)
Theorem resetPreviewPage_valid (previewPage pagesLength : nat) :
  ((0 < pagesLength)%nat -> (resetPreviewPage previewPage pagesLength < pagesLength)%nat) /\
  (pagesLength = 0%nat -> resetPreviewPage previewPage pagesLength = 0%nat) /\
  ((previewPage < pagesLength)%nat ->
   resetPreviewPage previewPage pagesLength = previewPage).
Proof.
  unfold resetPreviewPage.
  destruct (Nat.leb_spec pagesLength previewPage);
    destruct (Nat.ltb_spec 0 pagesLength);
    destruct (Nat.eqb_spec pagesLength 0); simpl; repeat split; intros; lia.
Qed.

(** ** Pages of the layout *)

(** X8.  The layout has no page exactly when there is nothing to print:
    when the copy counts add up to zero, in particular for an empty
    gallery. *)
Theorem layout_empty_iff (s : PrintSettings) (imgs : list ImageFile.t) :
  calculateLayout s imgs = [] <->
  list_sum (map ImageFile.copies imgs) = 0%nat.
Proof.
  rewrite <- allItemsToPrint_length. split; intros H.
  - rewrite <- (layout_images s imgs), H. reflexivity.
  - apply length_zero_iff_nil in H.
    unfold calculateLayout, packedPages, packItems. rewrite H. reflexivity.
Qed.

(** Sealed pages are never dropped or changed: the loop only appends. *)
Lemma placeItem_pages (s : PrintSettings) (t : Size.t) (c : Cursor)
    (img : ImageFile.t) :
  exists more, pages (placeItem s t c img) = pages c ++ more.
Proof.
  unfold placeItem.
  destruct (orientSlot (orientation s) img t) as [[w h] r].
  unfold pushItem, sealPage, wrapRow. simpl.
  destruct (gtb (currentX c + w) _); simpl; destruct (gtb _ _); simpl;
    first [ now exists [] ; rewrite app_nil_r | eexists; reflexivity ].
Qed.

Lemma fold_placeItem_pages (s : PrintSettings) (t : Size.t)
    (l : list ImageFile.t) :
  forall c, exists more,
    pages (fold_left (placeItem s t) l c) = pages c ++ more.
Proof.
  induction l as [|img l IH]; intros c; simpl.
  - exists []. now rewrite app_nil_r.
  - destruct (IH (placeItem s t c img)) as (m2 & E2).
    destruct (placeItem_pages s t c img) as (m1 & E1).
    exists (m1 ++ m2). now rewrite E2, E1, app_assoc.
Qed.

(** X9.  An item too tall for the page seals the page that is still
    empty: when the first item to print, placed at the top margin, ends
    past the bottom limit, the first page of the layout is empty. *)
Theorem tall_first_item_empty_page (s : PrintSettings)
    (imgs : list ImageFile.t) (first : ImageFile.t) :
  0 <= spacing s ->
  hd_error (allItemsToPrint imgs) = Some first ->
  pageHeight - margin s + 0.001 < margin s + snd (fst (effectiveSlot s first)) ->
  nth_error (calculateLayout s imgs) 0 = Some [].
Proof.
  intros Hsp Hhd Htall.
  unfold calculateLayout, packedPages, packItems.
  destruct (allItemsToPrint imgs) as [|i rest]; [discriminate|].
  injection Hhd as ->. simpl fold_left.
  set (c1 := placeItem s (getTargetSize s) (startCursor s) first).
  assert (P1 : exists more, pages c1 = [] :: more).
  { unfold c1, placeItem. unfold effectiveSlot in Htall.
    destruct (orientSlot (orientation s) first (getTargetSize s)) as [[w h] r].
    simpl in Htall. unfold pushItem. simpl.
    assert (S : gtb (currentY (wrapRow s w (startCursor s)) + h)
                    (pageHeight - margin s + 0.001) = true).
    { apply gtb_true. unfold wrapRow. destruct (gtb _ _); simpl; lra. }
    unfold sealPage. rewrite S. simpl.
    unfold wrapRow. simpl. destruct (gtb (margin s + w) _); simpl; now exists []. }
  destruct P1 as (m1 & E1).
  destruct (fold_placeItem_pages s (getTargetSize s) rest c1) as (m2 & E2).
  rewrite E2, E1.
  destruct (currentImages _); reflexivity.
Qed.

Lemma tall_first_item_empty_page_witness :
  nth_error (calculateLayout tallCustom [unknownImage "a"]) 0 = Some [].
Proof.
  apply (tall_first_item_empty_page tallCustom [unknownImage "a"]
           (unknownImage "a")).
  - vm_compute. discriminate.
  - reflexivity.
  - vm_compute. reflexivity.
Defined.

(** ** Spacing between slots *)

Lemma apart_clear (sp : Q) (a b : Placed.t) :
  0 <= sp -> apart sp a b -> overlaps a b = false.
Proof.
  intros Hsp [H | [_ H]].
  - apply overlaps_clear_y. lra.
  - apply overlaps_clear_x. lra.
Qed.

Lemma apart_shift (sp d : Q) (a b : Placed.t) :
  apart sp a b -> apart sp (shiftX d a) (shiftX d b).
Proof.
  intros [H | [H1 H2]]; [left | right]; simpl; [assumption|].
  split; [assumption | lra].
Qed.

Lemma spacedPage_snoc (sp : Q) (l : Page) (n : Placed.t) :
  spacedPage sp l -> Forall (fun a => apart sp a n) l ->
  spacedPage sp (l ++ [n]).
Proof.
  unfold spacedPage. induction 1 as [|a l Ha Hl IH]; intros Hn; simpl.
  - constructor; constructor.
  - inversion Hn; subst. constructor.
    + apply Forall_app. split; [assumption|]. now constructor.
    + now apply IH.
Qed.

Lemma spacedPage_center (sp : Q) (p : Page) :
  spacedPage sp p -> spacedPage sp (centerPage p).
Proof.
  destruct p as [|i rest]; [trivial|].
  unfold centerPage. generalize (centerOffset i rest). intros d.
  unfold spacedPage. induction 1 as [|a l Ha Hl IH]; simpl; constructor.
  - apply Forall_map. eapply Forall_impl; [|exact Ha].
    intros b. apply apart_shift.
  - exact IH.
Qed.

Lemma spacedPage_ordered (sp : Q) (l : Page) :
  spacedPage sp l ->
  forall i j a b, (i < j)%nat ->
    nth_error l i = Some a -> nth_error l j = Some b -> apart sp a b.
Proof.
  unfold spacedPage. induction 1 as [|c l Hc Hl IH]; intros i j a b Hij Ha Hb.
  - destruct i; discriminate.
  - destruct j as [|j]; [lia|]. simpl in Hb. destruct i as [|i].
    + simpl in Ha. injection Ha as <-.
      rewrite Forall_forall in Hc. apply Hc. eapply nth_error_In; eassumption.
    + simpl in Ha. apply (IH i j); [lia | assumption | assumption].
Qed.

Section SpacingInvariant.

Variable s : PrintSettings.
Hypothesis Hvalid : validSettings s.

Lemma spacingInv_start : spacingInv (spacing s) (startCursor s).
Proof. constructor; simpl; constructor. Qed.

Lemma wrapRow_spacing (w : Q) (c : Cursor) :
  spacingInv (spacing s) c -> spacingInv (spacing s) (wrapRow s w c).
Proof.
  destruct Hvalid as (Hsp & _).
  intros [Hp Hc Hb]. unfold wrapRow.
  destruct (gtb _ _); constructor; simpl; try assumption.
  eapply Forall_impl; [|exact Hb].
  intros i [Hi _]. unfold spacedBehind. simpl. split; [lra|]. left. lra.
Qed.

Lemma sealPage_spacing (h : Q) (c : Cursor) :
  spacingInv (spacing s) c -> spacingInv (spacing s) (sealPage s h c).
Proof.
  intros [Hp Hc Hb]. unfold sealPage.
  destruct (gtb _ _); constructor; simpl; try assumption.
  - apply Forall_app. split; [assumption|]. now constructor.
  - constructor.
  - constructor.
Qed.

Lemma pushItem_spacing (img : ImageFile.t) (w h : Q) (r : bool) (c : Cursor) :
  0 <= w ->
  spacingInv (spacing s) c -> spacingInv (spacing s) (pushItem s img w h r c).
Proof.
  destruct Hvalid as (Hsp & _).
  intros Hw [Hp Hc Hb].
  pose proof (Q.le_max_l (rowHeight c) h) as Ml.
  pose proof (Q.le_max_r (rowHeight c) h) as Mr.
  constructor; simpl; try assumption.
  - apply spacedPage_snoc; [assumption|].
    eapply Forall_impl; [|exact Hb].
    intros i [_ Hi]. exact Hi.
  - apply Forall_app. split.
    + eapply Forall_impl; [|exact Hb].
      intros i [Hi1 Hi2]. unfold spacedBehind. simpl. split; [lra|].
      destruct Hi2 as [Hi2 | [Hi2 Hi3]]; [now left | right].
      split; [assumption | lra].
    + constructor; [|constructor]. unfold spacedBehind. simpl.
      split; [lra|]. right. split; [reflexivity | lra].
Qed.

Lemma placeItem_spacing (c : Cursor) (img : ImageFile.t) :
  spacingInv (spacing s) c ->
  spacingInv (spacing s) (placeItem s (getTargetSize s) c img).
Proof.
  intros Hinv.
  destruct (effectiveSlot_nonneg s img Hvalid) as [Hw _].
  unfold effectiveSlot in Hw. unfold placeItem.
  destruct (orientSlot (orientation s) img (getTargetSize s)) as [[w h] r].
  simpl in Hw.
  apply pushItem_spacing; [assumption|].
  apply sealPage_spacing. now apply wrapRow_spacing.
Qed.

Lemma packedPages_spaced (imgs : list ImageFile.t) :
  Forall (spacedPage (spacing s)) (packedPages s imgs).
Proof.
  assert (I : spacingInv (spacing s) (packItems s imgs)).
  { unfold packItems. generalize (allItemsToPrint imgs) as l.
    generalize spacingInv_start. generalize (startCursor s) as c.
    intros c Hc l. revert c Hc.
    induction l as [|img l IH]; intros c Hc; simpl; [assumption|].
    apply IH. now apply placeItem_spacing. }
  destruct I as [Hp Hc _]. unfold packedPages.
  destruct (currentImages (packItems s imgs)); [assumption|].
  apply Forall_app. split; [assumption|]. now constructor.
Qed.

End SpacingInvariant.

(** X10.  With settings that meet the data model, and whether or not the
    slots fit the page, any two slots of a page are a spacing apart in
    placement order: the earlier one ends at least [spacing] above the
    later one, or they share a row and the earlier one ends at least
    [spacing] to its left.  So slots never overlap, even when they
    overflow the page. *)
Theorem layout_slots_spaced (s : PrintSettings) (imgs : list ImageFile.t) :
  validSettings s ->
  forall page, In page (calculateLayout s imgs) ->
  forall i j a b, (i < j)%nat ->
    nth_error page i = Some a -> nth_error page j = Some b ->
    apart (spacing s) a b /\ overlaps a b = false.
Proof.
  intros Hv page Hin i j a b Hij Ha Hb.
  unfold calculateLayout in Hin. apply in_map_iff in Hin.
  destruct Hin as (p & <- & Hp).
  pose proof (packedPages_spaced s Hv imgs) as Hall.
  rewrite Forall_forall in Hall.
  pose proof (spacedPage_center _ _ (Hall p Hp)) as Hc.
  pose proof (spacedPage_ordered _ _ Hc i j a b Hij Ha Hb) as Hab.
  split; [assumption|].
  destruct Hv as (Hsp & _). now apply (apart_clear (spacing s)).
Qed.

Lemma layout_slots_spaced_witness :
  apart (spacing defaultSettings)
        (nth 0 (nth 0 (calculateLayout defaultSettings scenario1) [])
             (Placed.mk (unknownImage "a") 0 0 0 0 false))
        (nth 1 (nth 0 (calculateLayout defaultSettings scenario1) [])
             (Placed.mk (unknownImage "a") 0 0 0 0 false)).
Proof.
  apply (layout_slots_spaced defaultSettings scenario1)
    with (page := nth 0 (calculateLayout defaultSettings scenario1) [])
         (i := 0%nat) (j := 1%nat).
  - repeat split; vm_compute; discriminate.
  - vm_compute. left. reflexivity.
  - lia.
  - vm_compute. reflexivity.
  - vm_compute. reflexivity.
Defined.

(** ** Pages start at the top *)

Section TopInvariant.

Variable s : PrintSettings.

Lemma topInv_start : topInv s (startCursor s).
Proof.
  constructor; simpl.
  - constructor.
  - intros H. now elim H.
  - intros _. split; reflexivity.
Qed.

(** While the page is empty a slot that fits triggers neither test. *)
Lemma fresh_cursor_stays (w h : Q) (c : Cursor) :
  w <= pageWidth - 2 * margin s ->
  h <= pageHeight - 2 * margin s ->
  currentImages c = [] ->
  currentX c == margin s -> currentY c == margin s ->
  sealPage s h (wrapRow s w c) = c.
Proof.
  intros Hw Hh He Hx Hy.
  assert (W : wrapRow s w c = c).
  { unfold wrapRow.
    destruct (gtb_spec (currentX c + w) (pageWidth - margin s + 0.001)) as [G|G];
      [exfalso; lra | reflexivity]. }
  rewrite W. unfold sealPage.
  destruct (gtb_spec (currentY c + h) (pageHeight - margin s + 0.001)) as [G|G];
    [exfalso; lra | reflexivity].
Qed.

Lemma placeItem_top (c : Cursor) (img : ImageFile.t) :
  fitsPrintable s img ->
  topInv s c -> topInv s (placeItem s (getTargetSize s) c img).
Proof.
  intros (Hfw & Hfh) [Hp Hc Hf]. unfold effectiveSlot in *. unfold placeItem.
  destruct (orientSlot (orientation s) img (getTargetSize s)) as [[w h] r].
  simpl in Hfw, Hfh.
  destruct (currentImages c) as [|a l] eqn:E.
  - destruct (Hf eq_refl) as [Hx Hy].
    rewrite (fresh_cursor_stays w h c Hfw Hfh E Hx Hy).
    constructor; simpl; try assumption.
    + intros _. rewrite E. simpl. split; assumption.
    + rewrite E. discriminate.
  - assert (Ha : startsAtTop s (a :: l)) by (apply Hc; discriminate).
    unfold sealPage, wrapRow.
    destruct (gtb (currentX c + w) _); simpl;
      destruct (gtb _ _); simpl; constructor; simpl; rewrite ?E;
      try (intros; discriminate); try (intros _; exact Ha);
      try (intros _; simpl; split; reflexivity);
      try assumption;
      try (apply Forall_app; split; [assumption | now constructor]).
Qed.

Lemma packedPages_top (imgs : list ImageFile.t) :
  Forall (fitsPrintable s) imgs ->
  Forall (startsAtTop s) (packedPages s imgs).
Proof.
  intros Hfit.
  assert (I : topInv s (packItems s imgs)).
  { unfold packItems.
    pose proof (allItemsToPrint_Forall _ _ Hfit) as Hall.
    generalize topInv_start. generalize (startCursor s) as c.
    induction Hall as [|img l Hi Hl IH]; intros c Hc; simpl; [assumption|].
    apply IH. now apply placeItem_top. }
  destruct I as [Hp Hc _]. unfold packedPages.
  destruct (currentImages (packItems s imgs)) eqn:E; [assumption|].
  apply Forall_app. split; [assumption|]. constructor; [|constructor].
  apply Hc. discriminate.
Qed.

End TopInvariant.

(** X11.  When every effective slot fits the printable area, the layout
    has no empty page, and the first slot of every page sits at the top
    margin. *)
Theorem layout_pages_start_at_top (s : PrintSettings)
    (imgs : list ImageFile.t) :
  Forall (fitsPrintable s) imgs ->
  forall page, In page (calculateLayout s imgs) ->
    exists first rest, page = first :: rest /\ Placed.y first == margin s.
Proof.
  intros Hfit page Hin. unfold calculateLayout in Hin.
  apply in_map_iff in Hin. destruct Hin as (p & <- & Hp).
  pose proof (packedPages_top s imgs Hfit) as Hall.
  rewrite Forall_forall in Hall. specialize (Hall p Hp).
  destruct p as [|a l]; [destruct Hall|].
  destruct Hall as [_ Hy]. simpl.
  eexists. eexists. split; [reflexivity|]. simpl. exact Hy.
Qed.

Lemma layout_pages_start_at_top_witness :
  Forall (fun page =>
            exists first rest,
              page = first :: rest /\ Placed.y first == margin defaultSettings)
         (calculateLayout defaultSettings scenario1).
Proof.
  apply Forall_forall.
  apply (layout_pages_start_at_top defaultSettings scenario1).
  repeat constructor; vm_compute; discriminate.
Defined.

(** ** Centring twice *)

(** X12.  The centring pass is idempotent: on a centred page the offset
    it computes is zero, so a second pass moves no slot. *)
Theorem centerPage_idempotent (p : Page) :
  Forall2 (fun a b => Placed.x b == Placed.x a /\ sameSlot a b)
          (centerPage p) (centerPage (centerPage p)).
Proof.
  destruct p as [|i rest] eqn:Ep; [constructor|]. rewrite <- Ep.
  assert (Hne : p <> []) by (rewrite Ep; discriminate).
  set (q := centerPage p).
  assert (Hq : q <> []).
  { unfold q. rewrite centerPage_shift by assumption.
    now apply shiftX_nonempty. }
  rewrite (centerPage_shift q Hq).
  set (d := (pageWidth - (pageMaxX q - pageMinX q)) / 2 - pageMinX q).
  assert (Hd : d == 0).
  { unfold d, q. rewrite centerPage_shift by assumption.
    rewrite pageMinX_shift, pageMaxX_shift by assumption. qlra. }
  clearbody d. clear Hq. induction q as [|a l IH]; simpl; constructor.
  - split; [simpl; lra | repeat split].
  - exact IH.
Qed.

(** ** Orientation policies *)

Lemma orientSlot_cases (o : Orientation) (img : ImageFile.t) (t : Size.t) :
  orientSlot o img t = (Size.width t, Size.height t, false) \/
  orientSlot o img t = (Size.height t, Size.width t, true).
Proof.
  unfold orientSlot. destruct o;
    match goal with |- context [if ?b then _ else _] => destruct b end;
    auto.
Qed.

(** The policy on one effective slot. *)
Lemma orientSlot_policy (o : Orientation) (img : ImageFile.t) (t : Size.t) :
  let w := fst (fst (orientSlot o img t)) in
  let h := snd (fst (orientSlot o img t)) in
  (o = landscape -> h <= w) /\
  (o = portrait -> w <= h) /\
  (o = auto ->
   (ImageFile.height img < ImageFile.width img -> h <= w) /\
   (ImageFile.width img <= ImageFile.height img -> w <= h)).
Proof.
  unfold orientSlot.
  set (tw := Size.width t). set (th := Size.height t).
  destruct o; simpl.
  - destruct (gtb (ImageFile.width img) (ImageFile.height img)) eqn:L;
      destruct (gtb tw th) eqn:G; cmp_cases; simpl;
      repeat split; intros; try discriminate; lra.
  - destruct (gtb tw th) eqn:G; cmp_cases; simpl;
      repeat split; intros; try discriminate; lra.
  - destruct (ltb tw th) eqn:G; cmp_cases; simpl;
      repeat split; intros; try discriminate; lra.
Qed.

(** X13.  Every slot of the layout is the target size or its swap, and
    the rotated flag tells which.  Under [landscape] no slot is higher
    than wide, under [portrait] none is wider than high, and under [auto]
    a landscape image gets a slot at least as wide as high and any other
    image a slot at least as high as wide. *)
Theorem layout_orientation_policy (s : PrintSettings)
    (imgs : list ImageFile.t) (page : Page) (i : Placed.t) :
  In page (calculateLayout s imgs) -> In i page ->
  keptOrSwapped (getTargetSize s) i /\
  (orientation s = landscape -> Placed.h i <= Placed.w i) /\
  (orientation s = portrait -> Placed.w i <= Placed.h i) /\
  (orientation s = auto ->
   (ImageFile.height (Placed.img i) < ImageFile.width (Placed.img i) ->
    Placed.h i <= Placed.w i) /\
   (ImageFile.width (Placed.img i) <= ImageFile.height (Placed.img i) ->
    Placed.w i <= Placed.h i)).
Proof.
  intros Hp Hi. pose proof (layout_slots s imgs page i Hp Hi) as E.
  unfold slotOf, effectiveSlot in E. split.
  - destruct (orientSlot_cases (orientation s) (Placed.img i) (getTargetSize s))
      as [C | C]; rewrite C in E; injection E as E1 E2 E3; [left | right];
      repeat split; assumption.
  - pose proof (orientSlot_policy (orientation s) (Placed.img i)
                  (getTargetSize s)) as P.
    rewrite <- E in P. exact P.
Qed.

Lemma layout_orientation_policy_witness :
  keptOrSwapped (getTargetSize customLandscape)
    (nth 0 (nth 0 (calculateLayout customLandscape [unknownImage "a"]) [])
         (Placed.mk (unknownImage "a") 0 0 0 0 false)).
Proof.
  apply (layout_orientation_policy customLandscape [unknownImage "a"]
           (nth 0 (calculateLayout customLandscape [unknownImage "a"]) [])).
  - vm_compute. left. reflexivity.
  - vm_compute. left. reflexivity.
Defined.

(** X14.  Under the [auto] policy, once the stored size of an image is
    its decoded size, generatePDF never rotates it: the slot chosen by the
    layout already has the orientation of the image. *)
Theorem auto_layout_never_rotates (s : PrintSettings)
    (imgs : list ImageFile.t) (page : Page) (i : Placed.t) :
  orientation s = auto ->
  0 < Size.width (getTargetSize s) -> 0 < Size.height (getTargetSize s) ->
  In page (calculateLayout s imgs) -> In i page ->
  0 < ImageFile.height (Placed.img i) ->
  fst (pdfDraw s i (ImageFile.width (Placed.img i))
               (ImageFile.height (Placed.img i))) = false.
Proof.
  intros Ho Hw Hh Hp Hi Hih.
  pose proof (layout_slots s imgs page i Hp Hi) as E.
  unfold slotOf, effectiveSlot in E.
  pose proof (orientSlot_policy (orientation s) (Placed.img i)
                (getTargetSize s)) as (_ & _ & A).
  rewrite <- E in A. simpl in A. destruct (A Ho) as [A1 A2].
  assert (Hpos : 0 < Placed.h i).
  { destruct (orientSlot_cases (orientation s) (Placed.img i) (getTargetSize s))
      as [C | C]; rewrite C in E; injection E as _ -> _; assumption. }
  unfold pdfDraw.
  destruct (pdfDrawRect s _ _) as [[[dx dy] dw] dh]. simpl.
  rewrite shouldRotate_compare by assumption.
  destruct (gtb_spec (ImageFile.width (Placed.img i))
                     (ImageFile.height (Placed.img i))) as [L|L].
  - specialize (A1 L).
    assert (N1 : ltb (ImageFile.width (Placed.img i))
                     (ImageFile.height (Placed.img i)) = false)
      by (apply ltb_false; lra).
    assert (N2 : ltb (Placed.w i) (Placed.h i) = false)
      by (apply ltb_false; lra).
    rewrite N1, N2. now rewrite andb_false_r.
  - apply Qnot_lt_le in L. specialize (A2 L).
    assert (N1 : gtb (Placed.w i) (Placed.h i) = false)
      by (apply gtb_false; lra).
    rewrite N1. simpl. now rewrite andb_false_r.
Qed.

Lemma auto_layout_never_rotates_witness :
  fst (pdfDraw defaultSettings
         (nth 0 (nth 0 (calculateLayout defaultSettings [landscapeImage]) [])
              (Placed.mk landscapeImage 0 0 0 0 false))
         4000 3000) = false.
Proof.
  apply (auto_layout_never_rotates defaultSettings [landscapeImage]
           (nth 0 (calculateLayout defaultSettings [landscapeImage]) [])).
  - reflexivity.
  - reflexivity.
  - reflexivity.
  - vm_compute. left. reflexivity.
  - vm_compute. left. reflexivity.
  - reflexivity.
Defined.

(** X15.  A square slot or a square image is never rotated. *)
Theorem square_never_rotates (slotW slotH imgW imgH : Q) :
  0 < slotH -> 0 < imgH ->
  slotW == slotH \/ imgW == imgH ->
  shouldRotate slotW slotH imgW imgH = false.
Proof.
  intros Hs Hi Hsq. rewrite shouldRotate_compare by assumption.
  destruct Hsq as [E | E].
  - assert (N1 : gtb slotW slotH = false) by (apply gtb_false; lra).
    assert (N2 : ltb slotW slotH = false) by (apply ltb_false; lra).
    now rewrite N1, N2.
  - assert (N1 : gtb imgW imgH = false) by (apply gtb_false; lra).
    assert (N2 : ltb imgW imgH = false) by (apply ltb_false; lra).
    rewrite N1, N2. now rewrite !andb_false_r.
Qed.

Lemma square_never_rotates_witness :
  shouldRotate 10 10 4000 3000 = false.
Proof.
  apply (square_never_rotates 10 10 4000 3000); try reflexivity.
  left. reflexivity.
Defined.

(** ** The PNG canvas *)

(** X16.  The canvas of saveToPNG is the rounded pixel size of the target
    or its swap, and follows the orientation policy of the layout: never
    higher than wide under [landscape], never wider than high under
    [portrait], and under [auto] at least as wide as high for a landscape
    image and at least as high as wide for any other. *)
Theorem pngCanvas_orientation_policy (s : PrintSettings) (img : ImageFile.t) :
  let pxW := Math_round (Size.width (getTargetSize s) / 2.54 * 300) in
  let pxH := Math_round (Size.height (getTargetSize s) / 2.54 * 300) in
  let finalW := fst (pngCanvas s img) in
  let finalH := snd (pngCanvas s img) in
  (pngCanvas s img = (pxW, pxH) \/ pngCanvas s img = (pxH, pxW)) /\
  (orientation s = landscape -> finalH <= finalW) /\
  (orientation s = portrait -> finalW <= finalH) /\
  (orientation s = auto ->
   (ImageFile.height img < ImageFile.width img -> finalH <= finalW) /\
   (ImageFile.width img <= ImageFile.height img -> finalW <= finalH)).
Proof.
  intros pxW pxH finalW finalH. unfold finalW, finalH, pngCanvas.
  fold pxW pxH. clearbody pxW pxH.
  destruct (gtb (ImageFile.width img) (ImageFile.height img)) eqn:L;
    destruct (orientation s);
    destruct (ltb pxW pxH) eqn:A; destruct (gtb pxW pxH) eqn:B;
    cmp_cases; simpl;
    (split; [auto|]); repeat split; intros; try discriminate; lra.
Qed.

(** ** The crop of cover mode *)

(** X17.  In cover mode, when the image is not rotated, the crop lies
    inside the source image. *)
Theorem cover_crop_inside_source (imgW imgH drawX drawY drawW drawH : Q) :
  0 < imgW -> 0 < imgH -> 0 < drawW -> 0 < drawH ->
  exists sx sy sw sh,
    fitImage cover false imgW imgH drawX drawY drawW drawH =
      drawImageCrop sx sy sw sh drawX drawY drawW drawH /\
    0 <= sx /\ sx + sw <= imgW /\ 0 <= sy /\ sy + sh <= imgH /\
    0 < sw /\ 0 < sh.
Proof.
  intros HiW HiH HdW HdH. unfold fitImage, swapDraw, currentImgAspect.
  set (tA := drawW / drawH).
  assert (HA : 0 < tA) by now apply div_pos.
  destruct (gtb_spec (imgW / imgH) tA) as [G|G].
  - apply (proj1 (lt_div_iff tA imgW imgH HiH)) in G.
    assert (P : 0 < imgH * tA).
    { rewrite <- (Qmult_0_l tA). now apply Qmult_lt_r. }
    assert (S : imgH * tA < imgW) by (rewrite Qmult_comm; exact G).
    eexists. eexists. eexists. eexists. split; [reflexivity|].
    clearbody tA. remember (imgH * tA) as sw. clear Heqsw.
    repeat split; qlra.
  - apply Qnot_lt_le in G.
    assert (G' : imgW <= tA * imgH).
    { apply Qnot_lt_le. intros C. apply (lt_div_iff tA imgW imgH HiH) in C.
      exact (Qlt_not_le _ _ C G). }
    assert (S : imgW / tA <= imgH).
    { apply Qle_shift_div_r; [assumption|]. lra. }
    assert (P : 0 < imgW / tA) by now apply div_pos.
    eexists. eexists. eexists. eexists. split; [reflexivity|].
    clearbody tA. remember (imgW / tA) as sh. clear Heqsh.
    repeat split; lra.
Qed.

Lemma cover_crop_inside_source_witness :
  exists sx sy sw sh,
    fitImage cover false 4000 3000 0 0 1181 1772 =
      drawImageCrop sx sy sw sh 0 0 1181 1772 /\
    0 <= sx /\ sx + sw <= 4000 /\ 0 <= sy /\ sy + sh <= 3000 /\
    0 < sw /\ 0 < sh.
Proof.
  apply (cover_crop_inside_source 4000 3000 0 0 1181 1772); reflexivity.
Defined.

(** X18.  In cover mode, when a portrait image is rotated into a
    landscape draw rectangle, the crop keeps the full source height and
    is centred; it stays inside the source exactly when
    [imgH * drawH <= imgW * drawW], and otherwise reaches past both sides
    of the source. *)
Theorem cover_crop_rotated (imgW imgH drawX drawY drawW drawH : Q) :
  0 < imgW -> imgW < imgH -> 0 < drawH -> drawH < drawW ->
  exists sx sw,
    fitImage cover true imgW imgH drawX drawY drawW drawH =
      drawImageCrop sx 0 sw imgH drawX drawY drawH drawW /\
    sx + sw == imgW - sx /\
    (0 <= sx <-> imgH * drawH <= imgW * drawW).
Proof.
  intros HiW HiH HdH HdW. unfold fitImage, swapDraw, currentImgAspect.
  set (tA := drawH / drawW).
  assert (HW : 0 < drawW) by lra. assert (HH : 0 < imgH) by lra.
  assert (HA : 0 < tA) by now apply div_pos.
  assert (A1 : tA < 1) by (apply div_lt_iff; [assumption | lra]).
  assert (A2 : 1 < imgH / imgW) by (apply lt_div_iff; [assumption | lra]).
  destruct (gtb_spec (imgH / imgW) tA) as [G|G]; [|exfalso; lra].
  eexists. eexists. split; [reflexivity|]. split; [qlra|].
  assert (E : imgH * tA * drawW == imgH * drawH) by (unfold tA; field; lra).
  split; intros H.
  - assert (S : imgH * tA <= imgW) by qlra.
    rewrite <- E. apply Qmult_le_compat_r; lra.
  - assert (S : imgH * tA <= imgW).
    { apply Qnot_lt_le. intros C.
      apply (Qmult_lt_r _ _ drawW HW) in C. rewrite E in C. lra. }
    qlra.
Qed.

Lemma cover_crop_rotated_witness :
  exists sx sw,
    fitImage cover true 1000 4000 0 0 1772 1181 =
      drawImageCrop sx 0 sw 4000 0 0 1181 1772 /\
    sx + sw == 1000 - sx /\
    (0 <= sx <-> 4000 * 1181 <= 1000 * 1772).
Proof.
  apply (cover_crop_rotated 1000 4000 0 0 1772 1181); reflexivity.
Defined.

(** ** The border inset *)

(** X19.  The draw rectangle of generatePDF.  Without border or polaroid
    it is the whole canvas.  With either, it is inset by 4% of the canvas
    width on the left, right and top, and at the bottom by the same plus,
    for a polaroid, 12% of the canvas height; it never reaches past the
    canvas, and it keeps a positive height exactly when
    [0.08 * width < height] (for a polaroid, [0.08 * width < 0.88 * height]). *)
Theorem pdfDrawRect_inset (s : PrintSettings) (cw ch x y w h : Q) :
  0 <= cw -> 0 <= ch ->
  pdfDrawRect s cw ch = (x, y, w, h) ->
  (hasBorder s || isPolaroid s = false -> (x, y, w, h) = (0, 0, cw, ch)) /\
  (hasBorder s || isPolaroid s = true ->
   x == 0.04 * cw /\ y == x /\ x + w + x == cw /\ 0 <= w /\
   ch - (y + h) == x + (if isPolaroid s then 0.12 * ch else 0) /\
   y + h <= ch /\
   (0 < h <-> 0.08 * cw < (if isPolaroid s then 0.88 else 1) * ch)).
Proof.
  intros Hw Hh E. unfold pdfDrawRect in E.
  destruct (hasBorder s || isPolaroid s); split; intros B; try discriminate.
  - injection E as <- <- <- <-.
    destruct (isPolaroid s); repeat split; intros; lra.
  - symmetry. exact E.
Qed.

Lemma pdfDrawRect_inset_witness :
  1181 * 0.04 + (1181 - 1181 * 0.04 * 2) + 1181 * 0.04 == 1181.
Proof.
  apply (pdfDrawRect_inset polaroidSettings 1181 1772
           (1181 * 0.04) (1181 * 0.04) (1181 - 1181 * 0.04 * 2)
           (1772 - 1181 * 0.04 * 2 - 1772 * 0.12)).
  - vm_compute. discriminate.
  - vm_compute. discriminate.
  - reflexivity.
  - reflexivity.
Defined.

(** ** The rotated drawing frame *)

(** X20.  When the image is rotated, [drawImage] is given the rectangle
    at (drawX, drawY) with the swapped size drawH by drawW.  Under the
    transform set up before the call (the quarter turn about the centre of
    the draw rectangle) that rectangle lands on the canvas as a drawW by
    drawH rectangle displaced from the draw rectangle by
    [(drawH - drawW) / 2] along both axes; it lands on the draw rectangle
    itself only when the latter is square. *)
Theorem rotatedFrame_displaced (drawX drawY drawW drawH u v : Q) :
  drawX <= u <= drawX + drawH -> drawY <= v <= drawY + drawW ->
  let d := (drawH - drawW) / 2 in
  let F := rotatedFrame drawX drawY drawW drawH in
  (drawX + d <= fst (F (u, v)) <= drawX + d + drawW /\
   drawY + d <= snd (F (u, v)) <= drawY + d + drawH) /\
  (fst (F (drawX, drawY + drawW)) == drawX + d /\
   snd (F (drawX, drawY + drawW)) == drawY + d) /\
  (fst (F (drawX + drawH, drawY)) == drawX + d + drawW /\
   snd (F (drawX + drawH, drawY)) == drawY + d + drawH).
Proof.
  intros [Hu1 Hu2] [Hv1 Hv2] d F. unfold F, d, rotatedFrame, translate,
    rotateQuarter. simpl.
  repeat split; qlra.
Qed.

Lemma rotatedFrame_displaced_witness :
  fst (rotatedFrame 0 0 1181 1772 (0, 1181)) == 0 + (1772 - 1181) / 2 /\
  snd (rotatedFrame 0 0 1181 1772 (0, 1181)) == 0 + (1772 - 1181) / 2.
Proof.
  apply (rotatedFrame_displaced 0 0 1181 1772 0 0);
    split; vm_compute; discriminate.
Defined.

(** ** The PNG export *)

(** X21.  saveToPNG writes one file per copy, image after image in
    gallery order, numbered from 1 to the copy count within each image;
    the images of the files, in order, are the images of the slots of the
    layout, so the PNG export has as many files as the PDF has slots. *)
Theorem saveToPNG_files (s : PrintSettings) (imgs : list ImageFile.t)
    (decoded : ImageFile.t -> Q * Q) :
  map (fun f => fst (fst f)) (saveToPNG s imgs decoded) =
    map Placed.img (List.concat (calculateLayout s imgs)) /\
  map (fun f => snd (fst f)) (saveToPNG s imgs decoded) =
    flat_map (fun img => seq 1 (ImageFile.copies img)) imgs /\
  List.length (saveToPNG s imgs decoded) =
    list_sum (map (@List.length Placed.t) (calculateLayout s imgs)).
Proof.
  assert (A : map (fun f => fst (fst f)) (saveToPNG s imgs decoded) =
              allItemsToPrint imgs).
  { unfold saveToPNG, allItemsToPrint.
    induction imgs as [|a l IH]; simpl; [reflexivity|].
    rewrite map_app, IH, map_map. simpl. f_equal.
    generalize 0%nat. induction (ImageFile.copies a) as [|n IHn]; intros k;
      simpl; [reflexivity|]. now rewrite IHn. }
  split; [|split].
  - now rewrite A, layout_images.
  - clear A. unfold saveToPNG.
    induction imgs as [|a l IH]; simpl; [reflexivity|].
    rewrite map_app, map_map. simpl. rewrite <- seq_shift.
    f_equal. exact IH.
  - rewrite <- (length_map (fun f => fst (fst f))), A.
    rewrite <- length_concat, <- (length_map Placed.img), layout_images.
    reflexivity.
Qed.

(** ** Uploads and page count *)

(** X22.  An upload adds one slot to print per picked file, after all
    the slots of the images already in the gallery. *)
Theorem upload_appends_slots (files : list PickedFile)
    (prev : list ImageFile.t) :
  allItemsToPrint (handleFileUpload files prev) =
  allItemsToPrint prev ++ map newImage files.
Proof.
  unfold allItemsToPrint, handleFileUpload. rewrite flat_map_app. f_equal.
  induction files as [|f l IH]; simpl; [reflexivity|]. now rewrite IH.
Qed.

Lemma nonempty_pages_count (ps : list Page) :
  Forall (fun p => p <> []) ps ->
  (List.length ps <= List.length (List.concat ps))%nat.
Proof.
  induction 1 as [|p l Hp Hl IH]; simpl; [lia|].
  rewrite length_app. destruct p; [now elim Hp | simpl; lia].
Qed.

(** X23.  When every effective slot fits the printable area, the layout
    has at most as many pages as there are copies to print. *)
Theorem layout_page_count (s : PrintSettings) (imgs : list ImageFile.t) :
  Forall (fitsPrintable s) imgs ->
  (List.length (calculateLayout s imgs) <=
   list_sum (map ImageFile.copies imgs))%nat.
Proof.
  intros Hfit.
  rewrite <- allItemsToPrint_length, <- (layout_images s imgs), length_map.
  apply nonempty_pages_count. apply Forall_forall. intros page Hin.
  unfold calculateLayout in Hin. apply in_map_iff in Hin.
  destruct Hin as (p & <- & Hp).
  pose proof (packedPages_top s imgs Hfit) as Hall.
  rewrite Forall_forall in Hall. specialize (Hall p Hp).
  destruct p; [destruct Hall | discriminate].
Qed.

Lemma layout_page_count_witness :
  (List.length (calculateLayout defaultSettings scenario1) <=
   list_sum (map ImageFile.copies scenario1))%nat.
Proof.
  apply (layout_page_count defaultSettings scenario1).
  repeat constructor; vm_compute; discriminate.
Defined.
